(** * Hindi speech-to-text service: the audio-to-text pipeline

    A shallow embedding of [app/utils.py], [app/inference.py] and
    [app/main.py], and the properties of the pipeline they implement:
    duration gate, vocabulary loading, greedy CTC collapse, whitespace
    post-processing and the order of the stages. *)

From Stdlib Require Import ZArith QArith Reals Lra Lia List Ascii String.
From stdpp Require Import base option list gmap fin_maps.

Local Open Scope Z_scope.

(** ** Python values *)

(** A Python [str] is a sequence of Unicode code points. *)
Definition codepoint := N.
Abbreviation str := (list codepoint).

(** An ASCII literal as a [str]. *)
Definition lit (s : string) : str := map N_of_ascii (list_ascii_of_string s).

(** The letters of the specification's example: DEVANAGARI LETTER A
    (U+0905) and DEVANAGARI LETTER BA (U+092C). *)
Definition letter_a : str := [2309%N].
Definition letter_ba : str := [2348%N].

(** [sep.join(parts)]. *)
Fixpoint join (sep : str) (parts : list str) : str :=
  match parts with
  | [] => []
  | [p] => p
  | p :: ps => p ++ sep ++ join sep ps
  end.

(** [max(d.keys())]: the keys are scanned and the largest one is kept;
    [None] stands for the [ValueError] Python raises on an empty dict. *)
Definition max_key {V} (d : gmap Z V) : option Z :=
  foldr (λ k acc, Some (match acc with Some a => Z.max k a | None => k end))
        None (map_to_list d).*1.

(** ** [decode_tokens] (app/utils.py) *)

Module Decode.

(** The two locals the loop updates. *)
Record loop_state := LoopState {
  decoded_tokens : list str;
  prev_token : option Z
}.

(** One iteration of [for token_id in token_ids]. *)
Definition loop_body (token_map : gmap Z str) (blank_token_id : Z)
    (st : loop_state) (token_id : Z) : loop_state :=
  if bool_decide (token_id = blank_token_id) then
    LoopState (decoded_tokens st) None
  else if bool_decide (Some token_id = prev_token st) then
    st
  else
    LoopState
      (match token_map !! token_id with
       | Some tok => decoded_tokens st ++ [tok]
       | None => decoded_tokens st
       end)
      (Some token_id).

(** [decode_tokens] on a sequence of integer ids. Nothing in the body
    raises on such input, so the [except] branch is not reached. *)
Definition decode_tokens (token_ids : list Z) (token_map : gmap Z str) : str :=
  if bool_decide (size token_map = 0%nat) then []
  else
    let blank_token_id :=
      match max_key token_map with Some k => k | None => 128 end in
    let st := foldl (loop_body token_map blank_token_id)
                    (LoopState [] None) token_ids in
    join [] (decoded_tokens st).

(** The decoder as section 4.3 of the specification words it: the frames
    are consumed in temporal order, [previous] is threaded through, and
    the emitted tokens are laid end to end. *)
Fixpoint ctc_collapse (blank : Z) (table : gmap Z str)
    (previous : option Z) (frames : list Z) : str :=
  match frames with
  | [] => []
  | id :: rest =>
      if decide (id = blank) then ctc_collapse blank table None rest
      else if decide (previous = Some id) then ctc_collapse blank table previous rest
      else match table !! id with
           | Some tok => tok ++ ctc_collapse blank table (Some id) rest
           | None => ctc_collapse blank table (Some id) rest
           end
  end.

(** [blank] is the largest id present in [table]. *)
Definition is_max_id (table : gmap Z str) (blank : Z) : Prop :=
  blank ∈ dom table ∧ ∀ k, k ∈ dom table → k ≤ blank.

(** No two neighbouring frames carry the same id. *)
Fixpoint no_adjacent_dup (frames : list Z) : Prop :=
  match frames with
  | a :: ((b :: _) as rest) => a ≠ b ∧ no_adjacent_dup rest
  | _ => True
  end.

End Decode.

(** ** Whitespace and text helpers of [str] *)

Module Text.

(** [str.isspace] on one code point, the test behind [split()] and
    [strip()]: TAB..CR, FS..US, SPACE, NEL, NBSP, OGHAM SPACE MARK,
    EN QUAD..HAIR SPACE, LINE and PARAGRAPH SEPARATOR, NARROW NBSP,
    MEDIUM MATHEMATICAL SPACE, IDEOGRAPHIC SPACE. *)
Definition isspace (c : codepoint) : bool :=
  ((9 <=? c) && (c <=? 13) || (28 <=? c) && (c <=? 32)
   || (c =? 133) || (c =? 160) || (c =? 5760)
   || (8192 <=? c) && (c <=? 8202)
   || (c =? 8232) || (c =? 8233) || (c =? 8239) || (c =? 8287)
   || (c =? 12288))%N.

Definition SPACE : codepoint := 32%N.

(** [s.lstrip()], [s.rstrip()], [s.strip()]. *)
Fixpoint lstrip (s : str) : str :=
  match s with
  | c :: rest => if isspace c then lstrip rest else s
  | [] => []
  end.

Definition rstrip (s : str) : str := rev (lstrip (rev s)).

Definition strip (s : str) : str := rstrip (lstrip s).

(** [s.split()]: the maximal runs of non-whitespace, in order; [word] is
    the run being read. *)
Fixpoint split_from (word : str) (s : str) : list str :=
  match s with
  | [] => match word with [] => [] | _ => [word] end
  | c :: rest =>
      if isspace c then
        match word with
        | [] => split_from [] rest
        | _ => word :: split_from [] rest
        end
      else split_from (word ++ [c]) rest
  end.

Definition split (s : str) : list str := split_from [] s.

(** [s.split(' ', 1)]: cut at the first SPACE, if there is one. *)
Fixpoint split_space_1 (s : str) : list str :=
  match s with
  | [] => [[]]
  | c :: rest =>
      if (c =? SPACE)%N then [[]; rest]
      else match split_space_1 rest with
           | first :: others => (c :: first) :: others
           | [] => [[c]]
           end
  end.

(** [s.lower()] on the ASCII letters. The two tests of the upload handler,
    ["audio" in s.lower()] and [s.lower().endswith('.wav')], look for ASCII
    letters only, and no other code point lowers to one of them alone, so
    on these tests this agrees with [str.lower]. *)
Definition lower_char (c : codepoint) : codepoint :=
  if ((65 <=? c) && (c <=? 90))%N then (c + 32)%N else c.

Definition lower (s : str) : str := map lower_char s.

Fixpoint startswith (s prefix : str) : bool :=
  match prefix, s with
  | [], _ => true
  | p :: prefix', c :: s' => (p =? c)%N && startswith s' prefix'
  | _ :: _, [] => false
  end.

Definition endswith (s suffix : str) : bool := startswith (rev s) (rev suffix).

(** [sub in s]. *)
Fixpoint contains (sub s : str) : bool :=
  startswith s sub || match s with [] => false | _ :: s' => contains sub s' end.

(** [int(s)] on ASCII input: optional surrounding whitespace, an optional
    sign, then decimal digits, single underscores allowed between digits.
    [None] stands for [ValueError]. Used for the worked examples only; the
    general statements take Python's [int] as a parameter. *)
Definition digit_of (c : codepoint) : option Z :=
  if ((48 <=? c) && (c <=? 57))%N then Some (Z.of_N c - 48) else None.

Fixpoint digits_from (acc : Z) (s : str) : option Z :=
  match s with
  | [] => Some acc
  | c :: rest =>
      match digit_of c with
      | Some d => digits_from (10 * acc + d) rest
      | None =>
          if (c =? 95)%N then
            match rest with
            | c' :: rest' =>
                match digit_of c' with
                | Some d => digits_from (10 * acc + d) rest'
                | None => None
                end
            | [] => None
            end
          else None
      end
  end.

Definition unsigned_int (s : str) : option Z :=
  match s with
  | c :: rest =>
      match digit_of c with
      | Some d => digits_from d rest
      | None => None
      end
  | [] => None
  end.

Definition ascii_int (s : str) : option Z :=
  match strip s with
  | 43%N :: rest => unsigned_int rest
  | 45%N :: rest => Z.opp <$> unsigned_int rest
  | body => unsigned_int body
  end.

(** [str(n)] for an integer [n >= 0], as an f-string renders it: the
    decimal digits, most significant first, no leading zero. The digits
    are produced from the least significant one; a number has no more
    decimal digits than binary ones, which bounds the recursion. *)
Fixpoint decimal_rev (fuel : nat) (n : N) : str :=
  match fuel with
  | O => []
  | S fuel' =>
      (48 + n mod 10)%N ::
      (if (n <? 10)%N then [] else decimal_rev fuel' (n / 10)%N)
  end.

Definition decimal (n : N) : str :=
  rev (decimal_rev (S (N.to_nat (N.size n))) n).

(** Whitespace normalisation as section 4.5 of the specification words it:
    every run of whitespace becomes one SPACE ([in_run] tells that the
    previous character was whitespace), then both ends are trimmed. *)
Fixpoint collapse_runs (in_run : bool) (s : str) : str :=
  match s with
  | [] => []
  | c :: rest =>
      if isspace c then
        if in_run then collapse_runs true rest
        else SPACE :: collapse_runs true rest
      else c :: collapse_runs false rest
  end.

Definition normalize_whitespace (s : str) : str :=
  strip (collapse_runs false s).

(** A word: not empty and free of whitespace. *)
Definition is_word (w : str) : Prop :=
  w ≠ [] ∧ Forall (λ c, isspace c = false) w.

(** The same text produced in one pass, which the proofs use to relate the
    two above: [emit st s] copies the non-whitespace characters of [s] and
    puts one SPACE before each word but the first. *)
Inductive scan := AtStart | InWord | AfterGap.

Fixpoint emit (st : scan) (s : str) : str :=
  match s with
  | [] => []
  | c :: rest =>
      if isspace c then
        emit (match st with AtStart => AtStart | _ => AfterGap end) rest
      else
        match st with
        | AfterGap => SPACE :: c :: emit InWord rest
        | _ => c :: emit InWord rest
        end
  end.

End Text.

(** ** [ASRInference._post_process_text] (app/inference.py) *)

Definition no_speech_detected : str := lit "[No speech detected]".

Definition _post_process_text (text : str) : str :=
  let text := join [Text.SPACE] (Text.split text) in
  match Text.strip text with
  | [] => no_speech_detected
  | _ => Text.strip text
  end.

(** ** Exceptions, the process state and the calls that leave the program *)

(** What a Python call ends with. [HTTPException] is the only exception
    class the handlers tell apart; any other is an [Exception] carrying
    its [str(e)]. Signals outside [Exception] (cancellation, interrupts)
    are not modelled. *)
Inductive exn :=
| Exception (message : str)
| HTTPException (status_code : Z) (detail : str).

Inductive outcome (A : Type) :=
| Returned (a : A)
| Raised (e : exn).
Arguments Returned {A} a.
Arguments Raised {A} e.

(** ** The feature step of [preprocess_audio] (app/utils.py, lines 69-99)

    Arrays hold exact real numbers: the formulas are those of the code,
    the rounding of floating point is not modelled, and the final
    [astype(np.float32)] is the identity. A 2-d array is the list of its
    rows, a 3-d array the list of its 2-d slices. *)

Module Features.

Inductive window_t := hann.
Inductive pad_mode_t := constant.

(** The keyword arguments of [librosa.feature.melspectrogram]. *)
Record mel_params := {
  sr : Z;
  n_mels : nat;
  n_fft : Z;
  hop_length : Z;
  win_length : Z;
  window : window_t;
  center : bool;
  pad_mode : pad_mode_t
}.

(** The two calls into librosa: [librosa.feature.melspectrogram(y=..., **params)]
    and [librosa.power_to_db(S, ref=np.max)]. *)
Record Librosa := {
  melspectrogram : mel_params → list R → outcome (list (list R));
  power_to_db_ref_max : list (list R) → outcome (list (list R))
}.

Definition sum (row : list R) : R := foldr Rplus 0%R row.

(** [row.mean()]. *)
Definition mean (row : list R) : R := (sum row / INR (length row))%R.

(** [row.std()]: the square root of the mean squared deviation. *)
Definition std (row : list R) : R :=
  sqrt (mean (map (λ x, Rsqr (x - mean row)) row)).

(** [1e-8]. *)
Definition eps : R := (/ 100000000)%R.

(** [(log_mel_spec - mean) / (std + 1e-8)] where [mean] and [std] are
    taken with [axis=1, keepdims=True]: each row against its own mean
    and standard deviation. *)
Definition normalize_row (row : list R) : list R :=
  let m := mean row in
  let s := std row in
  map (λ x, ((x - m) / (s + eps))%R) row.

(** The arguments [preprocess_audio] passes. *)
Definition utils_params : mel_params := {|
  sr := 16000;
  n_mels := 80;
  n_fft := 512;
  hop_length := 160;
  win_length := 400;
  window := hann;
  center := true;
  pad_mode := constant
|}.

(** Lines 69-99: scaling, mel spectrogram, dB, normalisation, batch
    axis, cast. *)
Definition features (L : Librosa) (samples : list R)
    : outcome (list (list (list R))) :=
  let samples := map (λ x, (x * 32768)%R) samples in
  match melspectrogram L utils_params samples with
  | Raised e => Raised e
  | Returned mel_spec =>
      match power_to_db_ref_max L mel_spec with
      | Raised e => Raised e
      | Returned log_mel_spec =>
          let normalized_features := map normalize_row log_mel_spec in
          let features := [normalized_features] in
          Returned features
      end
  end.



End Features.

(** The calls into librosa, the inference runtime and the file system,
    recorded in the order they are made. *)
Inductive call :=
| librosa_load_call (path : str)
| melspectrogram_call
| InferenceSession_call
| session_run_call
| open_call (path : str)
| NamedTemporaryFile_call
| add_cleanup_task_call (path : str).

(** The module-level [stats] dictionary of app/main.py, without
    [average_processing_time], which depends on the clock. *)
Record stats_t := Stats {
  total_requests : Z;
  successful_transcriptions : Z;
  failed_transcriptions : Z
}.

(** An [ASRInference] object: its lazily filled [token_map]. *)
Record ASRInference := MkASRInference {
  token_map : option (gmap Z str)
}.

#[global] Instance ASRInference_eq_dec : EqDecision ASRInference.
Proof. solve_decision. Defined.

Record process := Process {
  stats : stats_t;
  _inference_instance : option ASRInference;
  calls : list call
}.

(** What the program reads from outside: the result of each library call
    as a function of its arguments. *)
Inductive file_contents :=
| missing
| unreadable (message : str)
| lines (ls : list str).

Record World := {
  sample : Type;
  tensor : Type;
  logits_t : Type;
  (** [librosa.load(path, sr=16000)]: the samples at 16 kHz. *)
  librosa_load : str → outcome (list sample);
  (** lines 69-99 of app/utils.py, as the function from samples to
      features that the world stands for; [librosa_world] gives the
      worlds in which it is the code of those lines, [Features.features],
      over librosa's two calls. *)
  log_mel_features : list sample → outcome tensor;
  (** [input_tensor.shape[2]]. *)
  time_steps : tensor → Z;
  (** [os.path.exists(self.model_path)]. *)
  model_exists : bool;
  (** [ort.InferenceSession(self.model_path, ...)] on an existing file. *)
  load_session : outcome unit;
  (** [self.session.run(None, ort_inputs)[0]]. *)
  session_run : tensor → Z → outcome logits_t;
  (** [np.argmax(logits, axis=-1).squeeze()], a vector of frame ids. *)
  argmax_squeeze : logits_t → list Z;
  (** the text file at a path, as the lines its iterator yields. *)
  read_lines : str → file_contents;
  (** Python's [int] on a [str]; [None] stands for [ValueError]. *)
  py_int : str → option Z;
  (** the name [tempfile.NamedTemporaryFile] gives the upload. *)
  temp_name : str
}.

(** Computations over the process state that return or raise. *)
Definition M (A : Type) : Type := process → outcome A * process.

Definition ret {A} (a : A) : M A := λ p, (Returned a, p).

Definition raise {A} (e : exn) : M A := λ p, (Raised e, p).

Definition bind {A B} (m : M A) (k : A → M B) : M B :=
  λ p, match m p with
       | (Returned a, p') => k a p'
       | (Raised e, p') => (Raised e, p')
       end.

(** [try: body  except ... as e: handler e]. *)
Definition try_except {A} (body : M A) (handler : exn → M A) : M A :=
  λ p, match body p with
       | (Returned a, p') => (Returned a, p')
       | (Raised e, p') => handler e p'
       end.

Definition record_call (c : call) : M unit :=
  λ p, (Returned tt, Process (stats p) (_inference_instance p) (calls p ++ [c])).

Definition external {A} (c : call) (result : outcome A) : M A :=
  λ p, (result, Process (stats p) (_inference_instance p) (calls p ++ [c])).

Definition update_stats (f : stats_t → stats_t) : M unit :=
  λ p, (Returned tt, Process (f (stats p)) (_inference_instance p) (calls p)).

#[global] Instance M_ret : MRet M := @ret.
#[global] Instance M_bind : MBind M := λ A B k m, bind m k.

(** ** app/utils.py *)

Module Utils.
Section with_world.
Context (W : World).

(** [librosa.get_duration(y=y, sr=sr)] is [len(y) / sr]. The quotient is
    kept exact: 5.0 and 10.0 are floats and float division rounds
    monotonically, so the two comparisons of [validate_audio] come out
    the same on the rounded quotient. *)
Definition get_duration (y : list (sample W)) (sr : positive) : Q :=
  Z.of_nat (length y) # sr.

Definition validate_audio (path : str) : M bool :=
  try_except
    (y ← external (librosa_load_call path) (librosa_load W path);
     let sr := 16000%positive in
     let duration := get_duration y sr in
     let is_valid := Qle_bool 5 duration && Qle_bool duration 10 in
     ret is_valid)
    (λ _, ret false).

Definition preprocess_audio (path : str) : M (tensor W) :=
  try_except
    (samples ← external (librosa_load_call path) (librosa_load W path);
     features ← external melspectrogram_call (log_mel_features W samples);
     ret features)
    (λ e, raise e).

(** The body of [async for line in f] in [load_token_map]. *)
Definition load_line (token_map : gmap Z str) (line : str) : gmap Z str :=
  let line := Text.strip line in
  match line with
  | [] => token_map
  | _ =>
      match Text.split_space_1 line with
      | [token; idx] =>
          match py_int W idx with
          | Some i => <[i := token]> token_map
          | None => token_map
          end
      | _ => token_map
      end
  end.

Definition load_lines (ls : list str) : gmap Z str :=
  foldl load_line ∅ ls.

(** The entry a line adds to the table, if it adds one. *)
Definition entry_of_line (line : str) : option (Z * str) :=
  match Text.split_space_1 (Text.strip line) with
  | [token; idx] => (λ i, (i, token)) <$> py_int W idx
  | _ => None
  end.

(** A well-formed line as section 4.2 of the specification words it:
    cut at its first space, the line leaves a token, which may be
    empty, and an index that is an integer. *)
Definition well_formed_line (line : str) : bool :=
  match Text.split_space_1 line with
  | [token; idx] => bool_decide (is_Some (py_int W idx))
  | _ => false
  end.

Definition load_token_map (token_file : str) : M (gmap Z str) :=
  try_except
    (match read_lines W token_file with
     | missing => ret ∅
     | unreadable message =>
         external (open_call token_file) (Raised (Exception message))
     | lines ls =>
         external (open_call token_file) (Returned (load_lines ls))
     end)
    (λ _, ret ∅).

End with_world.
End Utils.

(** ** app/inference.py *)

Module Inference.
Section with_world.
Context (W : World).

Definition set_instance (i : ASRInference) : M unit :=
  λ p, (Returned tt, Process (stats p) (Some i) (calls p)).

(** [ASRInference.__init__] with [_initialize_model]. *)
Definition new_ASRInference : M ASRInference :=
  try_except
    (if model_exists W then
       external InferenceSession_call (load_session W);;
       ret (MkASRInference None)
     else raise (Exception (lit "Model file not found: model/stt_hi_conformer_ctc_medium.onnx")))
    (λ e, raise e).

Definition get_inference_instance : M ASRInference :=
  λ p, match _inference_instance p with
       | Some i => (Returned i, p)
       | None => (i ← new_ASRInference; set_instance i;; ret i) p
       end.

Definition _run_inference (input_tensor : tensor W) (input_length : Z)
    : M (logits_t W) :=
  try_except
    (external session_run_call (session_run W input_tensor input_length))
    (λ e, raise e).

(** [self.token_map = m]. The assignment changes the object [self] and
    nothing else. The module variable [_inference_instance] refers to an
    object; the process state shows the change when [self] is that
    object, and is untouched when [self] is an object the process does
    not hold. *)
Definition assign_token_map (self : ASRInference) (m : gmap Z str) : M unit :=
  λ p, if decide (_inference_instance p = Some self)
       then (Returned tt,
             Process (stats p) (Some (MkASRInference (Some m))) (calls p))
       else (Returned tt, p).

(** [ASRInference.transcribe]. *)
Definition transcribe (self : ASRInference) (audio_path : str) : M str :=
  try_except
    (input_tensor ← Utils.preprocess_audio W audio_path;
     let input_length := time_steps W input_tensor in
     logits ← _run_inference input_tensor input_length;
     let decoded_ids := argmax_squeeze W logits in
     token_map ← match token_map self with
                 | Some m => ret m
                 | None =>
                     m ← Utils.load_token_map W (lit "model/tokens.txt");
                     assign_token_map self m;;
                     ret m
                 end;
     let transcription := Decode.decode_tokens decoded_ids token_map in
     let transcription := _post_process_text transcription in
     ret transcription)
    (λ e, raise e).

Definition transcribe_audio (audio_path : str) : M str :=
  inference ← get_inference_instance;
  transcribe inference audio_path.

End with_world.
End Inference.

(** ** app/main.py *)

Module Main.

Record UploadFile := {
  content_type : option str;
  filename : option str;
  content : list Z
}.

(** The JSON body of a successful answer, without [processing_time],
    which depends on the clock. *)
Record JSONResponse := {
  transcription : str;
  response_filename : option str;
  model : str;
  status : str
}.

Section with_world.
Context (W : World).

Definition count_request (s : stats_t) : stats_t :=
  Stats (total_requests s + 1) (successful_transcriptions s) (failed_transcriptions s).
Definition count_success (s : stats_t) : stats_t :=
  Stats (total_requests s) (successful_transcriptions s + 1) (failed_transcriptions s).
Definition count_failure (s : stats_t) : stats_t :=
  Stats (total_requests s) (successful_transcriptions s) (failed_transcriptions s + 1).

(** [not file.content_type or "audio" not in file.content_type.lower()] *)
Definition bad_content_type (file : UploadFile) : bool :=
  match content_type file with
  | None | Some [] => true
  | Some ct => negb (Text.contains (lit "audio") (Text.lower ct))
  end.

(** [not file.filename or not file.filename.lower().endswith('.wav')] *)
Definition bad_filename (file : UploadFile) : bool :=
  match filename file with
  | None | Some [] => true
  | Some name => negb (Text.endswith (Text.lower name) (lit ".wav"))
  end.

Definition too_large (file : UploadFile) : bool :=
  bool_decide (10 * 1024 * 1024 < Z.of_nat (length (content file))).

Definition when_raise (c : bool) (e : exn) : M unit :=
  if c then raise e else ret tt.

(** The two [except] clauses of the handler; [temp_file_path] is the value
    of the local of that name when the exception arrives. *)
Definition on_error {A} (temp_file_path : option str) (e : exn) : M A :=
  update_stats count_failure;;
  match temp_file_path with
  | Some ((_ :: _) as path) => record_call (add_cleanup_task_call path)
  | _ => ret tt
  end;;
  match e with
  | HTTPException status_code detail => raise (HTTPException status_code detail)
  | Exception message =>
      raise (HTTPException 500
               (lit "Internal server error during transcription: " ++ message))
  end.

(** [POST /transcribe], given what its two fallible steps before the
    duration check end with: [read_error] is the exception that
    [await file.read()] raises, if it raises; [store] is what the
    [with tempfile.NamedTemporaryFile(...)] block ends with, the name of
    the written file or the exception of its creation, write or flush.
    The [try] block is cut where [temp_file_path] is assigned; both parts
    have the handlers of the one [try], which always raise, so nothing
    raised in the first part reaches the second. *)
Definition handle (read_error : option exn) (store : outcome str)
    (file : UploadFile) : M JSONResponse :=
  temp_file_path ←
    try_except
      (update_stats count_request;;
       when_raise (bad_content_type file)
         (HTTPException 400 (lit "Invalid file type. Only audio files are supported."));;
       when_raise (bad_filename file)
         (HTTPException 400 (lit "Only .wav files are supported"));;
       match read_error with
       | Some e => raise e
       | None => mret tt
       end;;
       when_raise (too_large file)
         (HTTPException 400 (lit "File too large. Maximum size is 10MB."));;
       external NamedTemporaryFile_call store)
      (on_error None);
  try_except
    (duration_valid ← Utils.validate_audio W temp_file_path;
     when_raise (negb duration_valid)
       (HTTPException 400 (lit "Audio duration must be between 5-10 seconds"));;
     transcription_text ← Inference.transcribe_audio W temp_file_path;
     update_stats count_success;;
     record_call (add_cleanup_task_call temp_file_path);;
     ret {| transcription := transcription_text;
            response_filename := filename file;
            model := lit "stt_hi_conformer_ctc_medium";
            status := lit "success" |})
    (on_error (Some temp_file_path)).

(** The handler on an upload that is read and stored without error, the
    stored file being [temp_name W]. *)
Definition transcribe (file : UploadFile) : M JSONResponse :=
  handle None (Returned (temp_name W)) file.

End with_world.
End Main.

(** ** model/export_to_onnx.py: the vocabulary file *)

Module ExportOnnx.

(** [for i, s in enumerate(vocab): f.write(f"{s} {i}\n")], from index [i]. *)
Fixpoint enumerate_lines (i : nat) (vocab : list str) : list str :=
  match vocab with
  | [] => []
  | s :: rest =>
      (s ++ [Text.SPACE] ++ Text.decimal (N.of_nat i) ++ [10%N])
      :: enumerate_lines (S i) rest
  end.

(** The lines [export] writes to [tokens.txt]: one per vocabulary entry,
    then the blank entry. *)
Definition token_lines (vocab : list str) : list str :=
  enumerate_lines 0 vocab
  ++ [lit "<blk>" ++ [Text.SPACE] ++ Text.decimal (N.of_nat (length vocab)) ++ [10%N]].

End ExportOnnx.

(** ** check_setup.py *)

Module CheckSetup.

(** What [__import__] or an [import] statement ends with. *)
Inductive import_result :=
| Imported
| ImportError
| OtherError (message : str).

(** What the script reads from its environment. *)
Record Env := {
  (** [os.path.exists] and [Path.exists]. *)
  path_exists : str → bool;
  (** importing a package or module by name. *)
  try_import : str → import_result;
  (** [open(tokens_file).readlines()] in [check_model_files]. *)
  readlines : outcome (list str)
}.

(** The names bound at the top level of app/inference.py. *)
Definition inference_names : list str :=
  [lit "ort"; lit "np"; lit "preprocess_audio"; lit "load_token_map";
   lit "decode_tokens"; lit "asyncio"; lit "logging"; lit "ThreadPoolExecutor";
   lit "os"; lit "Optional"; lit "logger"; lit "ASRInference";
   lit "_inference_instance"; lit "get_inference_instance"; lit "transcribe_audio"].

Definition required_files : list str :=
  [lit "app/__init__.py"; lit "app/main.py"; lit "app/inference.py";
   lit "app/utils.py"; lit "app/startup.py";
   lit "model/stt_hi_conformer_ctc_medium.onnx"; lit "model/tokens.txt";
   lit "deploy_requirements.txt"; lit "Dockerfile"; lit "README.md";
   lit "Description.md"].

Definition required_packages : list str :=
  [lit "fastapi"; lit "uvicorn"; lit "onnxruntime"; lit "librosa";
   lit "numpy"; lit "aiofiles"; lit "pydantic"].

Section with_env.
Context (W : World) (env : Env).

Definition check_file_exists (file_path : str) : bool :=
  path_exists env file_path.

Definition check_directory_structure : bool :=
  foldl (λ all_good file_path,
           if negb (check_file_exists file_path) then false else all_good)
        true required_files.

(** [except ImportError] catches a failed import; any other exception
    leaves the function. *)
Definition check_python_imports : M bool :=
  foldl (λ (acc : M bool) package,
           all_good ← acc;
           match try_import env package with
           | Imported => mret all_good
           | ImportError => mret false
           | OtherError message => raise (Exception message)
           end)
        (mret true) required_packages.

Definition check_model_files : M bool :=
  if negb (path_exists env (lit "model")) then mret false
  else
    let all_good := true in
    let all_good :=
      if path_exists env (lit "model/stt_hi_conformer_ctc_medium.onnx")
      then all_good else false in
    if path_exists env (lit "model/tokens.txt") then
      match readlines env with
      | Returned _ => mret all_good
      | Raised e => raise e
      end
    else mret false.

Definition import_from (module : str) (names : list str) (wanted : list str)
    : M unit :=
  match try_import env module with
  | Imported =>
      if forallb (λ name, bool_decide (name ∈ names)) wanted then mret tt
      else raise (Exception (lit "cannot import name"))
  | ImportError => raise (Exception (lit "No module named"))
  | OtherError message => raise (Exception message)
  end.

Definition test_audio_processing : M bool :=
  try_except
    (import_from (lit "app.utils")
       [lit "preprocess_audio"; lit "load_token_map"]
       [lit "preprocess_audio"; lit "load_token_map"];;
     if path_exists env (lit "model/tokens.txt") then
       Utils.load_token_map W (lit "model/tokens.txt");;
       if path_exists env (lit "audio/sample.wav") then
         Utils.preprocess_audio W (lit "audio/sample.wav");;
         mret true
       else mret true
     else mret false)
    (λ _, mret false).

(** [from app.inference import initialize_model; await initialize_model()].
    The call is reached only if the name is bound in the module. *)
Definition test_model_loading (initialize_model : M unit) : M bool :=
  try_except
    (import_from (lit "app.inference") inference_names [lit "initialize_model"];;
     initialize_model;;
     mret true)
    (λ _, mret false).

Definition main (initialize_model : M unit) : M bool :=
  r1 ← mret check_directory_structure;
  r2 ← check_python_imports;
  r3 ← check_model_files;
  r4 ← test_audio_processing;
  r5 ← test_model_loading initialize_model;
  let all_passed :=
    foldl (λ all_passed result, if negb result then false else all_passed)
          true [r1; r2; r3; r4; r5] in
  mret all_passed.

End with_env.
End CheckSetup.

(** An environment in which every file exists and every import works. *)
Definition complete_env : CheckSetup.Env := {|
  CheckSetup.path_exists := λ _, true;
  CheckSetup.try_import := λ _, CheckSetup.Imported;
  CheckSetup.readlines := Returned []
|}.

(** ** A world for the worked examples

    Every audio file loads as [audio]; the features have one
    frame per hop of 160 samples plus one; the model answers the blank id
    on every frame; the vocabulary file lists A, BA and the blank. *)
Definition example_world (audio : outcome (list unit)) : World := {|
  sample := unit;
  tensor := nat;
  logits_t := list Z;
  librosa_load := λ _, audio;
  log_mel_features := λ y, Returned (length y `div` 160 + 1)%nat;
  time_steps := Z.of_nat;
  model_exists := true;
  load_session := Returned tt;
  session_run := λ t _, Returned (replicate (t `div` 4) 7);
  argmax_squeeze := λ ids, ids;
  read_lines := λ _, lines [letter_a ++ lit " 5" ++ [10%N];
                             letter_ba ++ lit " 2" ++ [10%N];
                             lit "<blk> 7" ++ [10%N]];
  py_int := Text.ascii_int;
  temp_name := lit "/tmp/tmpk3x9.wav"
|}.

Definition wav_upload : Main.UploadFile := {|
  Main.content_type := Some (lit "audio/wav");
  Main.filename := Some (lit "clip.WAV");
  Main.content := [82; 73; 70; 70]
|}.



(** A decodable clip of [n] samples, and a file librosa cannot read. *)
Definition clip_world (n : N) : World :=
  example_world (Returned (replicate (N.to_nat n) tt)).

Definition corrupt_world : World :=
  example_world (Raised (Exception (lit "Error opening file: Format not recognised."))).

Definition fresh_process : process := Process (Stats 0 0 0) None [].

(** Worlds derived from another one: the vocabulary file is absent; the
    model file is absent. *)
Definition without_vocabulary (W : World) : World := {|
  sample := sample W;
  tensor := tensor W;
  logits_t := logits_t W;
  librosa_load := librosa_load W;
  log_mel_features := log_mel_features W;
  time_steps := time_steps W;
  model_exists := model_exists W;
  load_session := load_session W;
  session_run := session_run W;
  argmax_squeeze := argmax_squeeze W;
  read_lines := λ _, missing;
  py_int := py_int W;
  temp_name := temp_name W
|}.

Definition without_model (W : World) : World := {|
  sample := sample W;
  tensor := tensor W;
  logits_t := logits_t W;
  librosa_load := librosa_load W;
  log_mel_features := log_mel_features W;
  time_steps := time_steps W;
  model_exists := false;
  load_session := load_session W;
  session_run := session_run W;
  argmax_squeeze := argmax_squeeze W;
  read_lines := read_lines W;
  py_int := py_int W;
  temp_name := temp_name W
|}.

(** A process whose inference instance exists and holds a table. *)
Definition example_table : gmap Z str :=
  {[ 5 := letter_a; 2 := letter_ba; 7 := lit "<blk>" ]}.

(** A process whose inference instance exists and has not loaded its
    table yet. *)
Definition cold_process : process :=
  Process (Stats 0 0 0) (Some (MkASRInference None)) [].

Definition warm_process : process :=
  Process (Stats 3 2 1) (Some (MkASRInference (Some example_table))) [].

(** The libraries raise exceptions of their own, never the
    [HTTPException] of the web framework. *)
Definition plain {A} (o : outcome A) : Prop :=
  match o with
  | Raised (HTTPException _ _) => False
  | _ => True
  end.

Definition libraries_raise_plain (W : World) : Prop :=
  (∀ path, plain (librosa_load W path))
  ∧ (∀ y, plain (log_mel_features W y))
  ∧ plain (load_session W)
  ∧ (∀ t n, plain (session_run W t n)).

(** The upload passes the type, name and size checks of the handler. *)
Definition accepted (file : Main.UploadFile) : Prop :=
  Main.bad_content_type file || Main.bad_filename file || Main.too_large file = false.

(** * Properties *)

Section max_key_facts.
Context {V : Type}.

Lemma max_key_list_spec (l : list Z) :
  match foldr (λ k acc, Some (match acc with Some a => Z.max k a | None => k end))
              None l with
  | Some b => b ∈ l ∧ ∀ k, k ∈ l → k ≤ b
  | None => l = []
  end.
Proof.
  induction l as [|x l IH]; simpl; [done|].
  destruct (foldr _ None l) as [a|].
  - destruct IH as [Ha Hle]. split.
    + destruct (Z.max_spec x a) as [[_ ->]|[_ ->]]; set_solver.
    + intros k [->|Hk]%elem_of_cons; [lia|]. specialize (Hle _ Hk). lia.
  - subst l. split; [set_solver|]. intros k ->%list_elem_of_singleton. lia.
Qed.

Lemma elem_of_keys (d : gmap Z V) (k : Z) :
  k ∈ (map_to_list d).*1 ↔ k ∈ dom d.
Proof.
  rewrite elem_of_dom, list_elem_of_fmap. split.
  - intros [[k' v] [-> Hin]]. apply elem_of_map_to_list in Hin. eauto.
  - intros [v Hv]. exists (k, v). split; [done|]. by apply elem_of_map_to_list.
Qed.

Lemma max_key_Some (d : gmap Z V) (b : Z) :
  max_key d = Some b → b ∈ dom d ∧ ∀ k, k ∈ dom d → k ≤ b.
Proof.
  unfold max_key. intros Hb.
  pose proof (max_key_list_spec (map_to_list d).*1) as H. rewrite Hb in H.
  destruct H as [Hin Hle]. split.
  - by apply elem_of_keys.
  - intros k Hk. apply Hle. by apply elem_of_keys.
Qed.

Lemma max_key_None (d : gmap Z V) : max_key d = None → d = ∅.
Proof.
  unfold max_key. intros Hb.
  pose proof (max_key_list_spec (map_to_list d).*1) as H. rewrite Hb in H.
  apply fmap_nil_inv in H. by apply map_to_list_empty_iff.
Qed.

Lemma max_key_nonempty (d : gmap Z V) :
  d ≠ ∅ → ∃ b, max_key d = Some b.
Proof.
  intros Hne. destruct (max_key d) as [b|] eqn:E; [eauto|].
  by apply max_key_None in E.
Qed.
End max_key_facts.

(** ** Greedy CTC collapse *)

Section decode_facts.
Import Decode.

Lemma join_nil_snoc (parts : list str) (tok : str) :
  join [] (parts ++ [tok]) = join [] parts ++ tok.
Proof.
  induction parts as [|p [|q ps] IH]; [done..|].
  change (p ++ [] ++ join [] ((q :: ps) ++ [tok]) = (p ++ [] ++ join [] (q :: ps)) ++ tok).
  by rewrite IH, !app_assoc.
Qed.

Lemma join_nil_cons (p : str) (parts : list str) :
  join [] (p :: parts) = p ++ join [] parts.
Proof. destruct parts; simpl; [by rewrite app_nil_r | done]. Qed.

(** The loop, started in any state, emits what the collapse of the
    remaining frames emits, after what it already holds. *)
Lemma loop_collapse (table : gmap Z str) (blank : Z) (frames : list Z) :
  ∀ st,
    join [] (decoded_tokens (foldl (loop_body table blank) st frames))
    = join [] (decoded_tokens st) ++ ctc_collapse blank table (prev_token st) frames.
Proof.
  induction frames as [|id rest IH]; intros [out prev]; simpl.
  - by rewrite app_nil_r.
  - rewrite IH. unfold loop_body; simpl.
    case_bool_decide as Hb; destruct (decide (id = blank)); try done; simpl.
    case_bool_decide as Hp; destruct (decide (prev = Some id)); try done; simpl.
    destruct (table !! id) as [tok|]; simpl; [|done].
    by rewrite join_nil_snoc, <- app_assoc.
Qed.

Lemma decode_tokens_nonempty (frames : list Z) (table : gmap Z str) (blank : Z) :
  max_key table = Some blank →
  decode_tokens frames table = ctc_collapse blank table None frames.
Proof.
  intros Hmax. unfold decode_tokens.
  case_bool_decide as Hsz.
  - apply map_size_empty_iff in Hsz. subst table. by vm_compute in Hmax.
  - rewrite Hmax. simpl. by rewrite loop_collapse.
Qed.

(** On frames free of the blank id and of neighbouring repeats, the
    collapse keeps every mapped frame. *)
Lemma ctc_collapse_clean (table : gmap Z str) (blank : Z) (frames : list Z) :
  ∀ previous,
    blank ∉ frames →
    no_adjacent_dup frames →
    previous ≠ head frames ∨ previous = None →
    ctc_collapse blank table previous frames
    = join [] (omap (λ id, table !! id) frames).
Proof.
  induction frames as [|id rest IH]; intros previous Hblank Hdup Hprev; [done|].
  cbn [ctc_collapse omap list_omap].
  apply not_elem_of_cons in Hblank as [Hne Hblank].
  destruct (decide (id = blank)); [congruence|].
  destruct (decide (previous = Some id)) as [->|_].
  { destruct Hprev as [Hprev|Hprev]; [by simpl in Hprev | done]. }
  assert (ctc_collapse blank table (Some id) rest
          = join [] (omap (λ id, table !! id) rest)) as Hrest.
  { apply IH; [done| |].
    - destruct rest; [done|]. by destruct Hdup.
    - left. destruct rest as [|b rest]; [done|]. simpl.
      destruct Hdup as [Hab _]. congruence. }
  destruct (table !! id) as [tok|]; [|done].
  by rewrite join_nil_cons, Hrest.
Qed.
End decode_facts.

Import Decode.

(** Claim C1. On a non-empty vocabulary table, [decode_tokens] is the greedy
    collapse of the specification run with the largest id of the table as
    the blank id: frames are taken in order from [previous = None]; a blank
    frame resets [previous] and emits nothing; a frame equal to [previous]
    is skipped; any other frame appends its token when the table maps it
    (an unmapped id appends nothing) and becomes [previous]; the emitted
    tokens are concatenated without separator. *)
Theorem decode_tokens_is_ctc_collapse (frames : list Z) (table : gmap Z str) :
  table ≠ ∅ →
  ∃ blank, is_max_id table blank ∧
           decode_tokens frames table = ctc_collapse blank table None frames.
Proof.
  intros Hne. destruct (max_key_nonempty table Hne) as [blank Hmax].
  exists blank. split.
  - by apply max_key_Some.
  - by apply decode_tokens_nonempty.
Qed.

Lemma decode_tokens_is_ctc_collapse_witness :
  ∃ blank,
    is_max_id {[ 5 := letter_a; 2 := letter_ba; 7 := lit "<blk>" ]} blank ∧
    decode_tokens [5; 5; 2; 7; 2] {[ 5 := letter_a; 2 := letter_ba; 7 := lit "<blk>" ]}
    = ctc_collapse blank {[ 5 := letter_a; 2 := letter_ba; 7 := lit "<blk>" ]} None
                   [5; 5; 2; 7; 2].
Proof. apply decode_tokens_is_ctc_collapse. apply insert_non_empty. Defined.

(** Claim C5, as stated, on the code: the table [{5: A, 2: BA}] has no
    entry 7, so the decoder takes 5, its largest id, for the blank; the
    frames 5 are dropped and the result is BA alone. *)
Lemma decode_example_without_blank_entry :
  decode_tokens [5; 5; 2; 2; 2; 7; 7] {[ 5 := letter_a; 2 := letter_ba ]} = letter_ba
  ∧ decode_tokens [5; 5; 2; 2; 2; 7; 7] {[ 5 := letter_a; 2 := letter_ba ]}
    ≠ letter_a ++ letter_ba.
Proof. split; [by vm_compute | by vm_compute]. Qed.

(** Claim C5, amended. When the table also holds an entry for id 7 (whatever
    its token), 7 is the largest id, hence the blank, and the frames
    [5,5,2,2,2,7,7] decode to A followed by BA. *)
Theorem decode_example_with_blank_entry (blank_tok : str) :
  decode_tokens [5; 5; 2; 2; 2; 7; 7]
                {[ 5 := letter_a; 2 := letter_ba; 7 := blank_tok ]}
  = letter_a ++ letter_ba.
Proof. by vm_compute. Qed.

(** Claim C7. With an empty vocabulary table [decode_tokens] returns the
    empty string, whatever the frames are and however many. *)
Theorem decode_tokens_empty_table (frames : list Z) :
  decode_tokens frames ∅ = [].
Proof. done. Qed.

(** Claim C9. On a non-empty table, frames that hold neither the blank id
    (the largest id of the table) nor two equal neighbours decode to the
    tokens of the mapped frames, one per mapped frame, in order. *)
Theorem decode_tokens_collapsed_input
    (frames : list Z) (table : gmap Z str) (blank : Z) :
  table ≠ ∅ →
  is_max_id table blank →
  blank ∉ frames →
  no_adjacent_dup frames →
  decode_tokens frames table = join [] (omap (λ id, table !! id) frames).
Proof.
  intros Hne [Hin Hle] Hblank Hdup.
  destruct (max_key_nonempty table Hne) as [b Hmax].
  destruct (max_key_Some _ _ Hmax) as [Hbin Hble].
  assert (b = blank) as -> by (specialize (Hle _ Hbin); specialize (Hble _ Hin); lia).
  rewrite (decode_tokens_nonempty _ _ _ Hmax).
  apply ctc_collapse_clean; auto.
Qed.

Lemma decode_tokens_collapsed_input_witness :
  decode_tokens [5; 2; 9; 5] {[ 5 := letter_a; 2 := letter_ba; 7 := lit "<blk>" ]}
  = join [] (omap (λ id, ({[ 5 := letter_a; 2 := letter_ba; 7 := lit "<blk>" ]}
                           : gmap Z str) !! id) [5; 2; 9; 5]).
Proof.
  apply (decode_tokens_collapsed_input _ _ 7).
  - apply insert_non_empty.
  - apply max_key_Some. by vm_compute.
  - rewrite !not_elem_of_cons. repeat split; [lia..|apply not_elem_of_nil].
  - simpl. repeat split; lia.
Defined.

(** ** Duration gate *)

Section validate_audio_facts.
Context (W : World).

Lemma validate_audio_loaded (path : str) (p : process) (y : list (sample W)) :
  librosa_load W path = Returned y →
  (Utils.validate_audio W path p).1
  = Returned (Qle_bool 5 (Utils.get_duration W y 16000)
              && Qle_bool (Utils.get_duration W y 16000) 10).
Proof.
  intros Hload. unfold Utils.validate_audio, try_except, mbind, M_bind, bind, external.
  by rewrite Hload.
Qed.

Lemma validate_audio_unloaded (path : str) (p : process) (e : exn) :
  librosa_load W path = Raised e →
  (Utils.validate_audio W path p).1 = Returned false.
Proof.
  intros Hload. unfold Utils.validate_audio, try_except, mbind, M_bind, bind, external.
  by rewrite Hload.
Qed.

(** Only the call to [librosa.load] leaves the program. *)
Lemma validate_audio_calls (path : str) (p : process) :
  calls (Utils.validate_audio W path p).2 = calls p ++ [librosa_load_call path]
  ∧ stats (Utils.validate_audio W path p).2 = stats p
  ∧ _inference_instance (Utils.validate_audio W path p).2 = _inference_instance p.
Proof.
  unfold Utils.validate_audio, try_except, mbind, M_bind, bind, external.
  by destruct (librosa_load W path).
Qed.

Lemma in_range_true (d : Q) :
  Qle_bool 5 d && Qle_bool d 10 = true ↔ (5 <= d ∧ d <= 10)%Q.
Proof. by rewrite andb_true_iff, !Qle_bool_iff. Qed.

Lemma in_range_false (d : Q) :
  Qle_bool 5 d && Qle_bool d 10 = false ↔ (d < 5 ∨ 10 < d)%Q.
Proof.
  rewrite andb_false_iff. split.
  - intros [H|H]; [left|right]; apply Qnot_le_lt; intros Hle;
      apply Qle_bool_iff in Hle; congruence.
  - intros [H|H]; [left|right]; apply not_true_is_false; intros Hle;
      apply Qle_bool_iff in Hle; by apply Qlt_not_le in H.
Qed.
End validate_audio_facts.

(** Claim C3. For a file that decodes to samples [y], [validate_audio]
    accepts exactly when the duration [len(y)/16000] lies in the closed
    interval from 5 to 10 seconds: it rejects below 5 and above 10, and
    accepts both 5 and 10. *)
Theorem validate_audio_closed_interval
    (W : World) (path : str) (p : process) (y : list (sample W)) :
  librosa_load W path = Returned y →
  let duration := Utils.get_duration W y 16000 in
  let answer := (Utils.validate_audio W path p).1 in
  (answer = Returned true ↔ (5 <= duration ∧ duration <= 10)%Q)
  ∧ (answer = Returned false ↔ (duration < 5 ∨ 10 < duration)%Q)
  ∧ (duration == 5 → answer = Returned true)%Q
  ∧ (duration == 10 → answer = Returned true)%Q.
Proof.
  intros Hload duration answer. subst answer.
  rewrite (validate_audio_loaded W path p y Hload). fold duration.
  generalize duration as d; clear; intros d.
  assert (∀ b c : bool, Returned b = Returned c ↔ b = c) as Hinj
    by (intros b c; split; congruence).
  rewrite !Hinj, in_range_true, in_range_false.
  split; [done|]. split; [done|].
  split; intros Hd; rewrite Hd; split; by apply Qle_bool_iff.
Qed.

Lemma validate_audio_closed_interval_witness :
  let W := clip_world 80000 in
  let y : list (sample W) := replicate (N.to_nat 80000) tt in
  let duration := Utils.get_duration W y 16000 in
  let answer := (Utils.validate_audio W (lit "five_seconds.wav") fresh_process).1 in
  (answer = Returned true ↔ (5 <= duration ∧ duration <= 10)%Q)
  ∧ (answer = Returned false ↔ (duration < 5 ∨ 10 < duration)%Q)
  ∧ (duration == 5 → answer = Returned true)%Q
  ∧ (duration == 10 → answer = Returned true)%Q.
Proof.
  exact (validate_audio_closed_interval (clip_world 80000) (lit "five_seconds.wav")
           fresh_process (replicate (N.to_nat 80000) tt) eq_refl).
Defined.

(** Claim C10. [validate_audio] always returns a boolean and never raises;
    when librosa cannot load the file it returns [False], the same answer
    as for a clip shorter than 5 or longer than 10 seconds. *)
Theorem validate_audio_never_raises (W : World) (path : str) (p : process) :
  (∃ b, (Utils.validate_audio W path p).1 = Returned b)
  ∧ (∀ e, librosa_load W path = Raised e →
          (Utils.validate_audio W path p).1 = Returned false)
  ∧ (∀ y, librosa_load W path = Returned y →
          (Utils.get_duration W y 16000 < 5 ∨ 10 < Utils.get_duration W y 16000)%Q →
          (Utils.validate_audio W path p).1 = Returned false).
Proof.
  split; [|split].
  - destruct (librosa_load W path) as [y|e] eqn:Hload.
    + eexists. by apply validate_audio_loaded.
    + exists false. by eapply validate_audio_unloaded.
  - intros e Hload. by eapply validate_audio_unloaded.
  - intros y Hload Hout. rewrite (validate_audio_loaded W path p y Hload).
    f_equal. by apply in_range_false.
Qed.

Lemma validate_audio_never_raises_witness :
  ∃ b, (Utils.validate_audio corrupt_world (lit "broken.wav") fresh_process).1 = Returned b.
Proof.
  exact (proj1 (validate_audio_never_raises corrupt_world (lit "broken.wav") fresh_process)).
Defined.

(** ** Order of the stages *)

(** Claim C4, as stated, on the code: [ASRInference.transcribe] (and
    [transcribe_audio], which calls it) does not measure the duration. On a
    clip of 3 seconds it loads the audio, extracts the features, runs the
    session and returns a transcription. *)
Lemma transcribe_audio_runs_on_short_clip :
  let W := clip_world 48000 in
  let run := Inference.transcribe_audio W (lit "three_seconds.wav") fresh_process in
  (Utils.get_duration W (replicate (N.to_nat 48000) tt) 16000 == 3)%Q
  ∧ run.1 = Returned no_speech_detected
  ∧ calls run.2 = [InferenceSession_call;
                    librosa_load_call (lit "three_seconds.wav");
                    melspectrogram_call;
                    session_run_call;
                    open_call (lit "model/tokens.txt")].
Proof. repeat split; by vm_compute. Qed.

(** Claim C4, amended. The duration gate is in the upload handler
    [POST /transcribe]: when the stored upload decodes to a clip shorter
    than 5 or longer than 10 seconds, the handler raises [HTTPException]
    with status 400 and the failure counter goes up by one; no session is
    created, no features are extracted and no inference runs; and when
    the upload passed the type, name and size checks, the detail is the
    duration message and the audio was loaded once to measure it. *)
Theorem upload_outside_duration_rejected
    (W : World) (file : Main.UploadFile) (p : process) (y : list (sample W)) :
  librosa_load W (temp_name W) = Returned y →
  (Utils.get_duration W y 16000 < 5 ∨ 10 < Utils.get_duration W y 16000)%Q →
  ∃ detail added,
    (Main.transcribe W file p).1 = Raised (HTTPException 400 detail)
    ∧ calls (Main.transcribe W file p).2 = calls p ++ added
    ∧ (melspectrogram_call ∉ added)
    ∧ (session_run_call ∉ added)
    ∧ (InferenceSession_call ∉ added)
    ∧ failed_transcriptions (stats (Main.transcribe W file p).2)
      = failed_transcriptions (stats p) + 1
    ∧ (Main.bad_content_type file || Main.bad_filename file || Main.too_large file = false →
       detail = lit "Audio duration must be between 5-10 seconds"
       ∧ librosa_load_call (temp_name W) ∈ added).
Proof.
  intros Hload Hout. apply in_range_false in Hout.
  unfold Main.transcribe, Main.handle, Main.on_error, Main.when_raise,
    Utils.validate_audio, try_except, update_stats, record_call, external, raise,
    mbind, mret, M_bind, M_ret, bind, ret.
  destruct (Main.bad_content_type file); simpl.
  { eexists _, []. rewrite app_nil_r. repeat split; try done; apply not_elem_of_nil. }
  destruct (Main.bad_filename file); simpl.
  { eexists _, []. rewrite app_nil_r. repeat split; try done; apply not_elem_of_nil. }
  destruct (Main.too_large file); simpl.
  { eexists _, []. rewrite app_nil_r. repeat split; try done; apply not_elem_of_nil. }
  rewrite Hload. simpl. rewrite Hout. simpl.
  destruct (temp_name W) as [|c name] eqn:Hname; simpl;
    eexists _, _; rewrite <- ?app_assoc; simpl;
    (split; [reflexivity|]); (split; [reflexivity|]);
    rewrite !not_elem_of_cons, !elem_of_cons;
    repeat split; try done; try apply not_elem_of_nil; auto.
Qed.

Lemma upload_outside_duration_rejected_witness :
  let W := clip_world 48000 in
  ∃ detail added,
    (Main.transcribe W wav_upload fresh_process).1 = Raised (HTTPException 400 detail)
    ∧ calls (Main.transcribe W wav_upload fresh_process).2 = calls fresh_process ++ added
    ∧ (melspectrogram_call ∉ added)
    ∧ (session_run_call ∉ added)
    ∧ (InferenceSession_call ∉ added)
    ∧ failed_transcriptions (stats (Main.transcribe W wav_upload fresh_process).2)
      = failed_transcriptions (stats fresh_process) + 1
    ∧ (Main.bad_content_type wav_upload || Main.bad_filename wav_upload
       || Main.too_large wav_upload = false →
       detail = lit "Audio duration must be between 5-10 seconds"
       ∧ librosa_load_call (temp_name W) ∈ added).
Proof.
  apply (upload_outside_duration_rejected (clip_world 48000) wav_upload fresh_process
           (replicate (N.to_nat 48000) tt)).
  - reflexivity.
  - left. vm_compute. reflexivity.
Defined.

Example upload_of_three_seconds :
  let run := Main.transcribe (clip_world 48000) wav_upload fresh_process in
  run.1 = Raised (HTTPException 400 (lit "Audio duration must be between 5-10 seconds"))
  ∧ calls run.2 = [NamedTemporaryFile_call;
                    librosa_load_call (lit "/tmp/tmpk3x9.wav");
                    add_cleanup_task_call (lit "/tmp/tmpk3x9.wav")]
  ∧ stats run.2 = Stats 1 0 1.
Proof. vm_compute. repeat split. Qed.

Example upload_of_six_seconds :
  let run := Main.transcribe (clip_world 96000) wav_upload fresh_process in
  Main.transcription <$> match run.1 with Returned r => Some r | Raised _ => None end
  = Some no_speech_detected
  ∧ calls run.2 = [NamedTemporaryFile_call;
                    librosa_load_call (lit "/tmp/tmpk3x9.wav");
                    InferenceSession_call;
                    librosa_load_call (lit "/tmp/tmpk3x9.wav");
                    melspectrogram_call;
                    session_run_call;
                    open_call (lit "model/tokens.txt");
                    add_cleanup_task_call (lit "/tmp/tmpk3x9.wav")]
  ∧ stats run.2 = Stats 1 1 0.
Proof. vm_compute. repeat split. Qed.

(** ** Vocabulary loading *)

Section text_facts.
Import Text.

Lemma lstrip_head (s : str) (c : codepoint) (rest : str) :
  lstrip s = c :: rest → isspace c = false.
Proof.
  induction s as [|a s IH]; simpl; [done|].
  destruct (isspace a) eqn:Ha; [done|]. by intros [= <- _].
Qed.

Lemma lstrip_suffix (s : str) : ∃ dropped, s = dropped ++ lstrip s.
Proof.
  induction s as [|a s [d IH]]; simpl; [by exists []|].
  destruct (isspace a); [|by exists []].
  exists (a :: d). simpl. by rewrite <- IH.
Qed.

Lemma rstrip_prefix (s : str) : ∃ dropped, s = rstrip s ++ dropped.
Proof.
  unfold rstrip. destruct (lstrip_suffix (rev s)) as [d Hd].
  exists (rev d). rewrite <- rev_app_distr, <- Hd. by rewrite rev_involutive.
Qed.

Lemma strip_head (s : str) (c : codepoint) (rest : str) :
  strip s = c :: rest → isspace c = false.
Proof.
  unfold strip. intros Hs.
  destruct (rstrip_prefix (lstrip s)) as [d Hd]. rewrite Hs in Hd.
  by apply (lstrip_head s c (rest ++ d)).
Qed.

(** [split(' ', 1)] either finds no space and gives the string back, or
    cuts it at its first space. *)
Lemma split_space_1_shape (s : str) :
  (split_space_1 s = [s] ∧ SPACE ∉ s)
  ∨ (∃ token idx, split_space_1 s = [token; idx]
                  ∧ s = token ++ SPACE :: idx ∧ SPACE ∉ token).
Proof.
  induction s as [|c s IH]; simpl.
  - left. split; [done|]. apply not_elem_of_nil.
  - destruct (N.eqb_spec c SPACE) as [->|Hc].
    + right. exists [], s. repeat split. apply not_elem_of_nil.
    + destruct IH as [[-> Hnot]|(token & idx & -> & -> & Hnot)].
      * left. split; [done|]. apply not_elem_of_cons. split; [congruence|done].
      * right. exists (c :: token), idx. repeat split.
        apply not_elem_of_cons. split; [congruence|done].
Qed.

Lemma first_space_unique (a b a' b' : str) :
  a ++ SPACE :: b = a' ++ SPACE :: b' → SPACE ∉ a → SPACE ∉ a' →
  a = a' ∧ b = b'.
Proof.
  revert a'. induction a as [|x a IH]; intros [|x' a'] Heq Ha Ha'; simpl in Heq.
  - by injection Heq as ->.
  - injection Heq as <- _. exfalso. apply Ha'. apply elem_of_cons. by left.
  - injection Heq as -> _. exfalso. apply Ha. apply elem_of_cons. by left.
  - injection Heq as -> Heq.
    apply not_elem_of_cons in Ha as [_ Ha]. apply not_elem_of_cons in Ha' as [_ Ha'].
    destruct (IH a' Heq Ha Ha') as [-> ->]. done.
Qed.

Lemma split_space_1_two (s token idx : str) :
  split_space_1 s = [token; idx] ↔ s = token ++ SPACE :: idx ∧ SPACE ∉ token.
Proof.
  destruct (split_space_1_shape s) as [[Hs Hnot]|(t & i & Hs & Heq & Hnot)];
    rewrite Hs.
  - split; [done|]. intros [-> _]. exfalso. apply Hnot.
    apply elem_of_app. right. apply elem_of_cons. by left.
  - split.
    + by intros [= <- <-].
    + intros [Heq' Hnot']. rewrite Heq in Heq'.
      by destruct (first_space_unique _ _ _ _ Heq' Hnot Hnot') as [-> ->].
Qed.
End text_facts.

Lemma size_list_to_set_le (l : list Z) :
  (size (list_to_set l : gset Z) ≤ length l)%nat.
Proof.
  induction l as [|x l IH].
  - done.
  - rewrite list_to_set_cons, size_union_alt, size_singleton. simpl.
    pose proof (subseteq_size (list_to_set l ∖ {[x]}) (list_to_set l : gset Z)) as Hle.
    assert (list_to_set l ∖ {[x]} ⊆ (list_to_set l : gset Z)) as Hsub
      by (intros k Hk; by apply elem_of_difference in Hk as [? _]).
    specialize (Hle Hsub). lia.
Qed.

Section load_facts.
Context (W : World).
Import Utils.

Lemma load_line_entry (table : gmap Z str) (line : str) :
  load_line W table line
  = match entry_of_line W line with
    | Some (i, token) => <[i := token]> table
    | None => table
    end.
Proof.
  unfold load_line, entry_of_line.
  destruct (Text.strip line) as [|c rest]; [done|].
  destruct (Text.split_space_1 (c :: rest)) as [|token [|idx [|third others]]];
    try done.
  by destruct (py_int W idx).
Qed.

Lemma load_from (ls : list str) :
  ∀ table,
    foldl (load_line W) table ls
    = foldr (λ e acc, <[e.1 := e.2]> acc) table
            (reverse (omap (entry_of_line W) ls)).
Proof.
  induction ls as [|line ls IH]; intros table; [done|].
  cbn [foldl omap list_omap]. rewrite IH, load_line_entry.
  destruct (entry_of_line W line) as [[i token]|]; [|done].
  by rewrite reverse_cons, foldr_app.
Qed.

Lemma load_lines_last_wins (ls : list str) :
  load_lines W ls = list_to_map (reverse (omap (entry_of_line W) ls)).
Proof. unfold load_lines. by rewrite load_from. Qed.

Lemma load_lines_dom (ls : list str) :
  dom (load_lines W ls) = list_to_set (omap (entry_of_line W) ls).*1.
Proof.
  rewrite load_lines_last_wins, dom_list_to_map_L, fmap_reverse.
  apply set_eq. intros i. by rewrite !elem_of_list_to_set, elem_of_reverse.
Qed.

Lemma entry_of_line_shape (line : str) (i : Z) (token : str) :
  entry_of_line W line = Some (i, token)
  ↔ ∃ idx, Text.strip line = token ++ Text.SPACE :: idx
           ∧ (Text.SPACE ∉ token) ∧ py_int W idx = Some i.
Proof.
  unfold entry_of_line. split.
  - destruct (Text.split_space_1 (Text.strip line))
      as [|tok [|idx [|third others]]] eqn:Hs; try done.
    destruct (py_int W idx) as [j|] eqn:Hj; [|done].
    intros [= <- <-]. apply split_space_1_two in Hs as [Hs Hnot]. eauto.
  - intros (idx & Hs & Hnot & Hi).
    rewrite (proj2 (split_space_1_two _ _ _) (conj Hs Hnot)). by rewrite Hi.
Qed.

Lemma entry_token_nonempty (line : str) (i : Z) (token : str) :
  entry_of_line W line = Some (i, token) → token ≠ [].
Proof.
  intros (idx & Hs & _ & _)%entry_of_line_shape ->. simpl in Hs.
  by apply strip_head in Hs.
Qed.
End load_facts.

(** A defect of [load_token_map], kept apart from the claim: the line is
    stripped before it is cut, so a one-line file holding an empty token,
    a space and the index 5, well formed in the format of the
    specification and of the kind the exporter writes for a whitespace
    token, loads as the empty table. The second half shows two lines
    with one index. *)
Lemma load_drops_empty_token_and_repeated_index :
  let W := example_world (Returned []) in
  (Utils.well_formed_line W (lit " 5") = true
   ∧ Utils.load_lines W [lit " 5"] = ∅)
  ∧ (Utils.well_formed_line W (lit "a 1" ++ [10%N]) = true
     ∧ Utils.well_formed_line W (lit "b 1") = true
     ∧ size (Utils.load_lines W [lit "a 1" ++ [10%N]; lit "b 1"]) = 1%nat).
Proof. repeat split; by vm_compute. Qed.

(** Claim C6, as stated, on the code. The table is a dictionary keyed by
    the index: two well-formed lines that give the same index leave one
    entry, the later one, so the size of the table is 1 while the file
    has 2 well-formed lines. *)
Lemma load_repeated_index_one_entry :
  let W := example_world (Returned []) in
  let file := [lit "a 1" ++ [10%N]; lit "b 1"] in
  length (filter (λ line, Utils.well_formed_line W line = true) file) = 2%nat
  ∧ size (Utils.load_lines W file) = 1%nat
  ∧ Utils.load_lines W file !! 1 = Some (lit "b").
Proof. repeat split; by vm_compute. Qed.

Lemma entry_of_unindented_line
    (W : World) (line : str) (c : codepoint) (rest : str) (i : Z) (token : str) :
  line = c :: rest → Text.isspace c = false →
  Utils.entry_of_line W line = Some (i, token)
  ↔ ∃ idx, Text.rstrip line = token ++ Text.SPACE :: idx
           ∧ (Text.SPACE ∉ token) ∧ py_int W idx = Some i.
Proof.
  intros -> Hc. rewrite entry_of_line_shape.
  assert (Text.strip (c :: rest) = Text.rstrip (c :: rest)) as ->; [|done].
  unfold Text.strip. simpl. by rewrite Hc.
Qed.

(** Claim C6, amended. [load_token_map] never fails: a missing or
    unreadable file gives the empty table, and a readable one the table
    of its lines. A line that does not start with whitespace adds an
    entry exactly when, its trailing whitespace removed, it is a token
    without space, one space and a rest that [int] accepts; such a line
    with no index or a non-numeric index adds nothing and does not stop
    the load. A later line replaces an earlier one with the same index,
    and the size of the table is the number of distinct indices among
    the lines that add an entry: at most their count, and equal to it
    when no index repeats. *)
Theorem load_token_map_skips_bad_lines (W : World) (token_file : str) (p : process) :
  (∃ table, (Utils.load_token_map W token_file p).1 = Returned table
            ∧ (∀ ls, read_lines W token_file = lines ls → table = Utils.load_lines W ls)
            ∧ (read_lines W token_file = missing → table = ∅)
            ∧ (∀ message, read_lines W token_file = unreadable message → table = ∅))
  ∧ (∀ line c rest i token,
        line = c :: rest → Text.isspace c = false →
        Utils.entry_of_line W line = Some (i, token)
        ↔ ∃ idx, Text.rstrip line = token ++ Text.SPACE :: idx
                 ∧ (Text.SPACE ∉ token) ∧ py_int W idx = Some i)
  ∧ (∀ ls, Utils.load_lines W ls
           = list_to_map (reverse (omap (Utils.entry_of_line W) ls)))
  ∧ (∀ ls, let entries := omap (Utils.entry_of_line W) ls in
           size (Utils.load_lines W ls) = size (list_to_set entries.*1 : gset Z)
           ∧ (size (Utils.load_lines W ls) ≤ length entries)%nat
           ∧ (NoDup entries.*1 → size (Utils.load_lines W ls) = length entries)).
Proof.
  split; [|split; [|split]].
  - unfold Utils.load_token_map, try_except, external, mret, M_ret, ret.
    destruct (read_lines W token_file) as [|message|ls]; simpl.
    + exists ∅. repeat split; done.
    + exists ∅. repeat split; done.
    + exists (Utils.load_lines W ls). repeat split; try done. by intros ls' [= <-].
  - intros line c rest i token. apply entry_of_unindented_line.
  - apply load_lines_last_wins.
  - intros ls entries.
    assert (size (Utils.load_lines W ls) = size (list_to_set entries.*1 : gset Z)) as Hsize.
    { by rewrite <- size_dom, load_lines_dom. }
    rewrite Hsize. split; [done|]. split.
    + rewrite <- (length_fmap fst entries). apply size_list_to_set_le.
    + intros Hnodup. rewrite <- (length_fmap fst entries). by apply size_list_to_set.
Qed.

(** ** Whitespace post-processing *)

Section whitespace_facts.
Import Text.

Lemma isspace_SPACE : isspace SPACE = true.
Proof. done. Qed.

Lemma split_from_nonempty (s : str) :
  ∀ word, word ≠ [] → split_from word s ≠ [].
Proof.
  induction s as [|c rest IH]; intros word Hw; simpl.
  - by destruct word.
  - destruct (isspace c); [by destruct word|].
    apply IH. by destruct word.
Qed.

Lemma emit_after_gap (s : str) :
  emit AfterGap s = match emit AtStart s with [] => [] | r => SPACE :: r end.
Proof.
  induction s as [|c rest IH]; simpl; [done|]. by destruct (isspace c).
Qed.

(** [' '.join(s.split())] read off the one-pass scan. *)
Lemma join_split_from (s : str) :
  (∀ word, word ≠ [] → join [SPACE] (split_from word s) = word ++ emit InWord s)
  ∧ join [SPACE] (split_from [] s) = emit AtStart s
  ∧ emit AfterGap s = match split_from [] s with
                       | [] => []
                       | ws => SPACE :: join [SPACE] ws
                       end.
Proof.
  induction s as [|c rest (IHword & IHstart & IHgap)]; simpl.
  - split; [|done]. intros [|a word] Hw; [done|]. simpl. by rewrite app_nil_r.
  - destruct (isspace c) eqn:Hc.
    + split; [|done]. intros [|a word] Hw; [done|].
      rewrite IHgap. destruct (split_from [] rest); [|done].
      simpl. by rewrite app_nil_r.
    + assert (∀ word, join [SPACE] (split_from (word ++ [c]) rest)
                      = word ++ c :: emit InWord rest) as Hstep.
      { intros word. rewrite IHword by (by destruct word).
        by rewrite <- app_assoc. }
      split; [|split].
      * intros word _. apply Hstep.
      * apply (Hstep []).
      * pose proof (split_from_nonempty rest [c]) as Hne.
        pose proof (Hstep []) as Hjoin. simpl in Hjoin.
        destruct (split_from [c] rest); [by exfalso; apply Hne|].
        by rewrite <- Hjoin.
Qed.

Lemma lstrip_app (a b : str) :
  lstrip (a ++ b) = match lstrip a with [] => lstrip b | r => r ++ b end.
Proof.
  induction a as [|c a IH]; simpl; [done|]. by destruct (isspace c).
Qed.

Lemma rstrip_cons (c : codepoint) (s : str) :
  rstrip (c :: s) = match rstrip s with
                    | [] => if isspace c then [] else [c]
                    | r => c :: r
                    end.
Proof.
  unfold rstrip. simpl. rewrite lstrip_app.
  destruct (lstrip (rev s)) as [|x r] eqn:Hl; simpl.
  - by destruct (isspace c).
  - rewrite rev_app_distr. simpl.
    destruct (rev r ++ [x]) eqn:Hr; [by destruct (rev r)|done].
Qed.

Lemma lstrip_collapse_runs (s : str) :
  ∀ in_run, lstrip (collapse_runs in_run s) = collapse_runs false (lstrip s).
Proof.
  induction s as [|c rest IH]; intros in_run; simpl; [done|].
  destruct (isspace c) eqn:Hc.
  - destruct in_run; simpl; by rewrite ?isspace_SPACE, IH.
  - simpl. by rewrite Hc.
Qed.

Lemma rstrip_collapse_runs (s : str) :
  rstrip (collapse_runs false s) = emit InWord s
  ∧ rstrip (collapse_runs true s) = emit AtStart s.
Proof.
  induction s as [|c rest [IHfalse IHtrue]]; simpl; [done|].
  destruct (isspace c) eqn:Hc.
  - split; [|done].
    rewrite rstrip_cons, IHtrue, isspace_SPACE. by rewrite emit_after_gap.
  - rewrite rstrip_cons, IHfalse, Hc. by destruct (emit InWord rest).
Qed.

Lemma emit_lstrip (s : str) : emit AtStart (lstrip s) = emit AtStart s.
Proof.
  induction s as [|c rest IH]; simpl; [done|].
  destruct (isspace c) eqn:Hc; [done|]. simpl. by rewrite Hc.
Qed.

Lemma emit_in_word_lstrip (s : str) :
  emit InWord (lstrip s) = emit AtStart (lstrip s).
Proof.
  induction s as [|c rest IH]; simpl; [done|].
  destruct (isspace c) eqn:Hc; [done|]. simpl. by rewrite Hc.
Qed.

Lemma normalize_whitespace_emit (s : str) :
  normalize_whitespace s = emit AtStart s.
Proof.
  unfold normalize_whitespace, strip.
  rewrite lstrip_collapse_runs, (proj1 (rstrip_collapse_runs _)).
  by rewrite emit_in_word_lstrip, emit_lstrip.
Qed.

(** The scan starts with no whitespace and ends with none. *)
Lemma emit_head (s : str) (c : codepoint) (rest : str) :
  emit AtStart s = c :: rest → isspace c = false.
Proof.
  induction s as [|a s IH]; simpl; [done|].
  destruct (isspace a) eqn:Ha; [done|]. by intros [= <- _].
Qed.

Lemma rstrip_emit (s : str) : ∀ st, rstrip (emit st s) = emit st s.
Proof.
  induction s as [|c rest IH]; intros st; simpl; [done|].
  destruct (isspace c) eqn:Hc; [done|].
  assert (rstrip (c :: emit InWord rest) = c :: emit InWord rest) as Hword.
  { rewrite rstrip_cons, IH, Hc. by destruct (emit InWord rest). }
  destruct st; try done.
  by rewrite rstrip_cons, Hword.
Qed.

Lemma strip_emit (s : str) : strip (emit AtStart s) = emit AtStart s.
Proof.
  unfold strip.
  assert (lstrip (emit AtStart s) = emit AtStart s) as ->.
  { destruct (emit AtStart s) as [|c rest] eqn:He; [done|].
    simpl. by rewrite (emit_head _ _ _ He). }
  apply rstrip_emit.
Qed.
End whitespace_facts.

(** Claim C8. [_post_process_text] joins the whitespace-separated words of
    the text with single spaces, which is the text with every run of
    whitespace collapsed to one space and both ends trimmed; when that is
    empty it returns the sentinel ["[No speech detected]"] as its value,
    and otherwise the normalised text. *)
Theorem post_process_text_normalizes (text : str) :
  join [Text.SPACE] (Text.split text) = Text.normalize_whitespace text
  ∧ _post_process_text text
    = match Text.normalize_whitespace text with
      | [] => no_speech_detected
      | normalized => normalized
      end.
Proof.
  assert (join [Text.SPACE] (Text.split text) = Text.normalize_whitespace text) as Hjoin.
  { rewrite normalize_whitespace_emit. apply join_split_from. }
  split; [done|].
  unfold _post_process_text. rewrite Hjoin, normalize_whitespace_emit, strip_emit.
  by destruct (Text.emit Text.AtStart text).
Qed.

Example post_process_text_words :
  _post_process_text ([9; 32] ++ letter_a ++ [160; 10; 32] ++ letter_ba ++ [32])%N
  = letter_a ++ [Text.SPACE] ++ letter_ba.
Proof. by vm_compute. Qed.

Example post_process_text_blank :
  _post_process_text [32; 9; 10]%N = lit "[No speech detected]".
Proof. by vm_compute. Qed.

(** * Further properties of the decoder *)

Section collapse_algebra.
Context (table : gmap Z str) (blank : Z).

Lemma ctc_collapse_repeat (before after : list Z) (id : Z) :
  ∀ previous,
    ctc_collapse blank table previous (before ++ id :: id :: after)
    = ctc_collapse blank table previous (before ++ id :: after).
Proof.
  induction before as [|a before IH]; intros previous; simpl.
  - destruct (decide (id = blank)); [done|].
    destruct (decide (previous = Some id)) as [->|Hp].
    + by destruct (decide (Some id = Some id)).
    + destruct (table !! id); by destruct (decide (Some id = Some id)).
  - destruct (decide (a = blank)); [apply IH|].
    destruct (decide (previous = Some a)); [apply IH|].
    destruct (table !! a); by rewrite IH.
Qed.

Lemma ctc_collapse_blank_cut (before after : list Z) :
  ∀ previous,
    ctc_collapse blank table previous (before ++ blank :: after)
    = ctc_collapse blank table previous before ++ ctc_collapse blank table None after.
Proof.
  induction before as [|a before IH]; intros previous; simpl.
  - by destruct (decide (blank = blank)).
  - destruct (decide (a = blank)); [apply IH|].
    destruct (decide (previous = Some a)); [apply IH|].
    destruct (table !! a); rewrite IH; [by rewrite app_assoc | done].
Qed.

Lemma ctc_collapse_kept (frames : list Z) :
  ∀ previous,
    ∃ kept, kept `sublist_of` frames
            ∧ blank ∉ kept
            ∧ ctc_collapse blank table previous frames
              = join [] (omap (λ id, table !! id) kept).
Proof.
  induction frames as [|a frames IH]; intros previous; simpl.
  - exists []. split; [done|]. split; [apply not_elem_of_nil | done].
  - destruct (decide (a = blank)) as [Hblank|Hblank].
    { destruct (IH None) as (kept & Hsub & Hnot & Heq).
      exists kept. split; [by apply sublist_cons | done]. }
    destruct (decide (previous = Some a)).
    { destruct (IH previous) as (kept & Hsub & Hnot & Heq).
      exists kept. split; [by apply sublist_cons | done]. }
    destruct (IH (Some a)) as (kept & Hsub & Hnot & Heq).
    exists (a :: kept). split; [by apply sublist_skip|].
    split; [apply not_elem_of_cons; split; [congruence | done]|].
    cbn [omap list_omap]. destruct (table !! a) as [tok|]; [|done].
    by rewrite join_nil_cons, Heq.
Qed.
End collapse_algebra.

Lemma is_max_id_max_key (table : gmap Z str) (blank : Z) :
  is_max_id table blank → max_key table = Some blank.
Proof.
  intros [Hin Hle].
  assert (table ≠ ∅) as Hne.
  { intros ->. by rewrite dom_empty_L in Hin. }
  destruct (max_key_nonempty table Hne) as [b Hmax].
  destruct (max_key_Some _ _ Hmax) as [Hbin Hble].
  specialize (Hle _ Hbin). specialize (Hble _ Hin).
  rewrite Hmax. f_equal. lia.
Qed.

(** Repeating a frame never changes the decoded text, wherever the frame
    stands and whatever the table holds. *)
Theorem decode_tokens_repeat_frame
    (before after : list Z) (id : Z) (table : gmap Z str) :
  decode_tokens (before ++ id :: id :: after) table
  = decode_tokens (before ++ id :: after) table.
Proof.
  destruct (max_key table) as [blank|] eqn:Hmax.
  - rewrite !(decode_tokens_nonempty _ _ _ Hmax). apply ctc_collapse_repeat.
  - apply max_key_None in Hmax as ->. done.
Qed.

(** A blank frame cuts the decoding in two: the text of the frames before
    it followed by the text of the frames after it. *)
Theorem decode_tokens_blank_frame_cuts
    (before after : list Z) (table : gmap Z str) (blank : Z) :
  is_max_id table blank →
  decode_tokens (before ++ blank :: after) table
  = decode_tokens before table ++ decode_tokens after table.
Proof.
  intros Hmax%is_max_id_max_key.
  rewrite !(decode_tokens_nonempty _ _ _ Hmax). apply ctc_collapse_blank_cut.
Qed.

Lemma decode_tokens_blank_frame_cuts_witness :
  decode_tokens ([5; 5] ++ 7 :: [5; 2])
                {[ 5 := letter_a; 2 := letter_ba; 7 := lit "<blk>" ]}
  = decode_tokens [5; 5] {[ 5 := letter_a; 2 := letter_ba; 7 := lit "<blk>" ]}
    ++ decode_tokens [5; 2] {[ 5 := letter_a; 2 := letter_ba; 7 := lit "<blk>" ]}.
Proof.
  apply (decode_tokens_blank_frame_cuts [5; 5] [5; 2] _ 7).
  apply max_key_Some. by vm_compute.
Defined.

(** The decoded text is made of the tokens of a subsequence of the frames
    in which the blank id does not occur: nothing is reordered, nothing is
    emitted that no frame asked for, and the token stored under the blank
    id is never emitted for a blank frame. *)
Theorem decode_tokens_subsequence
    (frames : list Z) (table : gmap Z str) (blank : Z) :
  is_max_id table blank →
  ∃ kept, kept `sublist_of` frames
          ∧ blank ∉ kept
          ∧ decode_tokens frames table = join [] (omap (λ id, table !! id) kept).
Proof.
  intros Hmax%is_max_id_max_key.
  rewrite (decode_tokens_nonempty _ _ _ Hmax). apply ctc_collapse_kept.
Qed.

Lemma decode_tokens_subsequence_witness :
  ∃ kept, kept `sublist_of` [5; 5; 7; 5; 2]
          ∧ 7 ∉ kept
          ∧ decode_tokens [5; 5; 7; 5; 2]
                          {[ 5 := letter_a; 2 := letter_ba; 7 := lit "<blk>" ]}
            = join [] (omap (λ id, ({[ 5 := letter_a; 2 := letter_ba; 7 := lit "<blk>" ]}
                                     : gmap Z str) !! id) kept).
Proof.
  apply (decode_tokens_subsequence [5; 5; 7; 5; 2] _ 7).
  apply max_key_Some. by vm_compute.
Defined.

(** * Further properties of the post-processing *)

Section words_facts.
Import Text.

Lemma split_from_words (s : str) :
  ∀ word, Forall (λ c, isspace c = false) word →
          Forall is_word (split_from word s).
Proof.
  induction s as [|c rest IH]; intros word Hword; simpl.
  - destruct word as [|a word]; [constructor|].
    apply Forall_cons. split; [by split | constructor].
  - destruct (isspace c) eqn:Hc.
    + destruct word as [|a word]; [by apply IH|].
      apply Forall_cons. split; [by split | by apply IH].
    + apply IH. apply Forall_app. split; [done|]. by apply Forall_singleton.
Qed.

Lemma split_from_word_prefix (w : str) (rest : str) :
  Forall (λ c, isspace c = false) w →
  ∀ word, split_from word (w ++ rest) = split_from (word ++ w) rest.
Proof.
  induction 1 as [|c w Hc _ IH]; intros word; simpl.
  - by rewrite app_nil_r.
  - rewrite Hc, IH. by rewrite <- app_assoc.
Qed.

Lemma split_from_end_of_word (w rest : str) :
  w ≠ [] → split_from w (SPACE :: rest) = w :: split_from [] rest.
Proof. intros Hne. simpl. by destruct w. Qed.

(** Splitting undoes joining on a list of words. *)
Lemma split_join_words (ws : list str) :
  Forall is_word ws → split (join [SPACE] ws) = ws.
Proof.
  unfold split. induction 1 as [|w ws [Hne Hw] Hws IH]; [done|].
  destruct ws as [|w' ws].
  - change (join [SPACE] [w]) with w. rewrite <- (app_nil_r w) at 1.
    rewrite split_from_word_prefix by done. simpl. by destruct w.
  - change (join [SPACE] (w :: w' :: ws)) with (w ++ SPACE :: join [SPACE] (w' :: ws)).
    rewrite split_from_word_prefix by done.
    change ([] ++ w) with w.
    rewrite split_from_end_of_word by done. by rewrite IH.
Qed.

Lemma split_words (s : str) : Forall is_word (split s).
Proof. by apply split_from_words. Qed.

Lemma join_split_emit (s : str) : join [SPACE] (split s) = emit AtStart s.
Proof. apply join_split_from. Qed.

Lemma post_process_text_join (text : str) :
  _post_process_text text
  = match split text with
    | [] => no_speech_detected
    | ws => join [SPACE] ws
    end.
Proof.
  unfold _post_process_text.
  rewrite join_split_emit, strip_emit, <- join_split_emit.
  destruct (split text) as [|w ws] eqn:Hs; [done|].
  pose proof (split_words text) as Hwords. rewrite Hs in Hwords.
  apply Forall_cons in Hwords as [[Hne _] _].
  destruct ws; simpl; by destruct w.
Qed.
End words_facts.

(** [_post_process_text] never returns the empty string, and what it
    returns has no whitespace at either end. *)
Theorem post_process_text_nonempty_stripped (text : str) :
  _post_process_text text ≠ []
  ∧ Text.strip (_post_process_text text) = _post_process_text text.
Proof.
  unfold _post_process_text.
  rewrite join_split_emit, strip_emit.
  destruct (Text.emit Text.AtStart text) as [|c rest] eqn:He.
  - split; by vm_compute.
  - split; [done|]. rewrite <- He. apply strip_emit.
Qed.

(** [_post_process_text] keeps the words of the text: a text without any
    word becomes the sentinel, and otherwise the result splits into the
    same words as the text. *)
Theorem post_process_text_keeps_words (text : str) :
  (Text.split text = [] → _post_process_text text = no_speech_detected)
  ∧ (Text.split text ≠ [] →
     Text.split (_post_process_text text) = Text.split text).
Proof.
  rewrite post_process_text_join. split.
  - by intros ->.
  - intros Hne. destruct (Text.split text) as [|w ws] eqn:Hs; [done|].
    rewrite <- Hs. apply split_join_words, split_words.
Qed.

(** Post-processing twice is the same as post-processing once. *)
Theorem post_process_text_idempotent (text : str) :
  _post_process_text (_post_process_text text) = _post_process_text text.
Proof.
  rewrite (post_process_text_join text).
  destruct (Text.split text) as [|w ws] eqn:Hs; [by vm_compute|].
  rewrite post_process_text_join.
  rewrite <- Hs, split_join_words by apply split_words.
  by rewrite Hs.
Qed.

(** * Further properties of the vocabulary file *)

Section decimal_facts.
Import Text.

Lemma decimal_rev_digits (fuel : nat) :
  ∀ n, Forall (λ c, 48 ≤ c ≤ 57)%N (decimal_rev fuel n).
Proof.
  induction fuel as [|fuel IH]; intros n; cbn [decimal_rev]; [constructor|].
  pose proof (N.mod_upper_bound n 10 ltac:(done)) as Hmod.
  apply Forall_cons. split.
  - clear IH. generalize dependent (n `mod` 10)%N. intros r Hr. lia.
  - destruct (n <? 10)%N; [constructor | apply IH].
Qed.

Lemma decimal_rev_step (fuel : nat) (n : N) :
  decimal_rev (S fuel) n
  = (48 + n `mod` 10)%N ::
    (if (n <? 10)%N then [] else decimal_rev fuel (n / 10)%N).
Proof. done. Qed.

Lemma decimal_rev_value (fuel : nat) :
  ∀ n, (n < 2 ^ N.of_nat fuel)%N →
       foldr (λ c acc, 10 * acc + (Z.of_N c - 48)) 0 (decimal_rev (S fuel) n)
       = Z.of_N n.
Proof.
  induction fuel as [|fuel IH]; intros n Hn.
  - assert (n = 0%N) as -> by (simpl in Hn; lia). done.
  - rewrite decimal_rev_step.
    pose proof (N.Div0.div_mod n 10) as Hdiv.
    pose proof (N.mod_upper_bound n 10 ltac:(done)) as Hmod.
    assert (n / 10 < 2 ^ N.of_nat fuel)%N as Hquot.
    { apply N.Div0.div_lt_upper_bound.
      rewrite Nat2N.inj_succ, N.pow_succ_r' in Hn.
      clear -Hn. generalize dependent (2 ^ N.of_nat fuel)%N. intros p Hp. lia. }
    destruct (N.ltb_spec n 10) as [Hsmall|Hbig].
    + cbn [foldr]. clear -Hdiv Hmod Hsmall.
      generalize dependent (n `mod` 10)%N. generalize (n / 10)%N.
      intros q r Hdiv Hr. lia.
    + cbn [foldr]. rewrite (IH _ Hquot). clear -Hdiv Hmod.
      generalize dependent (n `mod` 10)%N. generalize (n / 10)%N.
      intros q r Hdiv Hr. lia.
Qed.

Lemma digits_from_digits (s : str) :
  Forall (λ c, 48 ≤ c ≤ 57)%N s →
  ∀ acc, digits_from acc s
         = Some (foldl (λ acc c, 10 * acc + (Z.of_N c - 48)) acc s).
Proof.
  induction 1 as [|c s Hc _ IH]; intros acc; simpl; [done|].
  unfold digit_of.
  destruct (N.leb_spec 48 c); [|lia]. destruct (N.leb_spec c 57); [|lia].
  simpl. apply IH.
Qed.

Lemma unsigned_int_digits (s : str) :
  s ≠ [] → Forall (λ c, 48 ≤ c ≤ 57)%N s →
  unsigned_int s = Some (foldl (λ acc c, 10 * acc + (Z.of_N c - 48)) 0 s).
Proof.
  intros Hne Hs. destruct s as [|c s]; [done|].
  apply Forall_cons in Hs as [Hc Hs]. simpl. unfold digit_of.
  destruct (N.leb_spec 48 c); [|lia]. destruct (N.leb_spec c 57); [|lia].
  simpl. by rewrite digits_from_digits.
Qed.

Lemma digit_not_space (c : codepoint) : (48 ≤ c ≤ 57)%N → isspace c = false.
Proof.
  intros Hc. unfold isspace.
  repeat match goal with
         | |- context [(?a <=? ?b)%N] => destruct (N.leb_spec a b); try lia
         | |- context [(?a =? ?b)%N] => destruct (N.eqb_spec a b); try lia
         end; done.
Qed.

Lemma lstrip_no_space (s : str) :
  Forall (λ c, isspace c = false) s → lstrip s = s.
Proof. destruct 1 as [|c s Hc _]; simpl; [done | by rewrite Hc]. Qed.

Lemma strip_no_space (s : str) :
  Forall (λ c, isspace c = false) s → strip s = s.
Proof.
  intros Hs. unfold strip, rstrip. rewrite (lstrip_no_space s Hs).
  rewrite lstrip_no_space by (by apply Forall_rev).
  apply rev_involutive.
Qed.

Lemma decimal_digits (n : N) :
  decimal n ≠ [] ∧ Forall (λ c, 48 ≤ c ≤ 57)%N (decimal n).
Proof.
  unfold decimal. split.
  - simpl. by destruct (rev _).
  - apply Forall_rev, decimal_rev_digits.
Qed.

Lemma foldl_rev_foldr {A B} (g : A → B → A) (a : A) (l : list B) :
  foldl g a (rev l) = foldr (λ c acc, g acc c) a l.
Proof.
  induction l as [|c l IH]; simpl; [done|]. by rewrite foldl_snoc, IH.
Qed.

(** Parsing a rendered number gives the number back. *)
Lemma ascii_int_decimal (n : N) : ascii_int (decimal n) = Some (Z.of_N n).
Proof.
  destruct (decimal_digits n) as [Hne Hdigits].
  assert (strip (decimal n) = decimal n) as Hstrip.
  { apply strip_no_space. eapply Forall_impl; [done|]. apply digit_not_space. }
  assert (unsigned_int (decimal n) = Some (Z.of_N n)) as Hvalue.
  { rewrite unsigned_int_digits by done. f_equal.
    unfold decimal. rewrite foldl_rev_foldr. apply decimal_rev_value.
    rewrite N2Nat.id. apply N.size_gt. }
  unfold ascii_int. rewrite Hstrip.
  destruct (decimal n) as [|c rest] eqn:Hd; [done|].
  apply Forall_cons in Hdigits as [Hc _].
  destruct c as [|p]; [lia|].
  do 6 (destruct p as [p|p|]; try lia; try exact Hvalue).
Qed.
End decimal_facts.

Section export_facts.
Context (W : World).
Import Text.

Lemma rstrip_snoc_space (s : str) (c : codepoint) :
  isspace c = true → rstrip (s ++ [c]) = rstrip s.
Proof. intros Hc. unfold rstrip. rewrite rev_app_distr. simpl. by rewrite Hc. Qed.

Lemma rstrip_snoc_other (s : str) (c : codepoint) :
  isspace c = false → rstrip (s ++ [c]) = s ++ [c].
Proof.
  intros Hc. unfold rstrip. rewrite rev_app_distr. simpl. rewrite Hc.
  simpl. by rewrite rev_involutive.
Qed.

Lemma lstrip_spaces (s rest : str) :
  Forall (λ c, isspace c = true) s → lstrip (s ++ rest) = lstrip rest.
Proof. induction 1 as [|c s Hc _ IH]; simpl; [done | by rewrite Hc]. Qed.

Lemma decimal_snoc (n : N) :
  ∃ front last, decimal n = front ++ [last] ∧ isspace last = false.
Proof.
  unfold decimal. rewrite decimal_rev_step. simpl rev.
  eexists _, _. split; [done|]. apply digit_not_space.
  pose proof (N.mod_upper_bound n 10 ltac:(done)) as Hmod.
  generalize dependent (n `mod` 10)%N. intros r Hr. lia.
Qed.

Lemma decimal_no_space (n : N) : SPACE ∉ decimal n.
Proof.
  intros Hin. destruct (decimal_digits n) as [_ Hdigits].
  rewrite Forall_forall in Hdigits. specialize (Hdigits _ Hin).
  unfold SPACE in Hdigits. lia.
Qed.

(** The line written for a token that is a word strips to the token, a
    space and the index. *)
Lemma strip_word_line (tok : str) (n : N) :
  is_word tok →
  strip (tok ++ [SPACE] ++ decimal n ++ [10%N]) = tok ++ SPACE :: decimal n.
Proof.
  intros [Hne Hword]. destruct (decimal_snoc n) as (front & last & Hd & Hlast).
  unfold strip. destruct tok as [|c tok]; [done|].
  apply Forall_cons in Hword as [Hc Hword].
  assert (lstrip ((c :: tok) ++ [SPACE] ++ decimal n ++ [10%N])
          = (c :: tok) ++ [SPACE] ++ decimal n ++ [10%N]) as ->.
  { simpl. by rewrite Hc. }
  rewrite Hd.
  replace ((c :: tok) ++ [SPACE] ++ (front ++ [last]) ++ [10%N])
    with ((((c :: tok) ++ SPACE :: front) ++ [last]) ++ [10%N])
    by (by rewrite <- !app_assoc).
  rewrite rstrip_snoc_space by done. rewrite rstrip_snoc_other by done.
  by rewrite <- !app_assoc.
Qed.

(** The line written for a token made of whitespace only (the empty token
    included) strips to the index alone. *)
Lemma strip_blank_line (tok : str) (n : N) :
  Forall (λ c, isspace c = true) tok →
  strip (tok ++ [SPACE] ++ decimal n ++ [10%N]) = decimal n.
Proof.
  intros Hblank. destruct (decimal_snoc n) as (front & last & Hd & Hlast).
  destruct (decimal_digits n) as [Hne Hdigits].
  unfold strip. rewrite lstrip_spaces by done.
  assert (lstrip ([SPACE] ++ decimal n ++ [10%N]) = decimal n ++ [10%N]) as ->.
  { simpl. destruct (decimal n) as [|d rest]; [done|].
    apply Forall_cons in Hdigits as [Hdigit _].
    simpl. by rewrite (digit_not_space d Hdigit). }
  rewrite rstrip_snoc_space by done. rewrite Hd. by apply rstrip_snoc_other.
Qed.

Lemma entry_of_word_line (tok : str) (n : N) (i : Z) :
  is_word tok → py_int W (decimal n) = Some i →
  Utils.entry_of_line W (tok ++ [SPACE] ++ decimal n ++ [10%N]) = Some (i, tok).
Proof.
  intros Hword Hint. apply entry_of_line_shape. exists (decimal n).
  split; [by apply strip_word_line|]. split; [|done].
  destruct Hword as [_ Hword]. intros Hin.
  rewrite Forall_forall in Hword. by specialize (Hword _ Hin).
Qed.

Lemma entry_of_blank_line (tok : str) (n : N) :
  Forall (λ c, isspace c = true) tok →
  Utils.entry_of_line W (tok ++ [SPACE] ++ decimal n ++ [10%N]) = None.
Proof.
  intros Hblank. unfold Utils.entry_of_line. rewrite strip_blank_line by done.
  destruct (split_space_1_shape (decimal n)) as [[-> _]|(t & i & _ & Heq & _)]; [done|].
  exfalso. apply (decimal_no_space n). rewrite Heq.
  apply elem_of_app. right. apply elem_of_cons. by left.
Qed.

(** What loading the enumerated lines does to a table: indices outside
    the enumerated range are untouched, a word is stored under its index,
    a whitespace token leaves its index as it was. *)
Lemma load_enumerate_lines (vocab : list str) :
  ∀ (i : nat) (table : gmap Z str),
    Forall (λ tok, is_word tok ∨ Forall (λ c, isspace c = true) tok) vocab →
    (∀ n, (i ≤ n < i + length vocab)%nat →
          py_int W (decimal (N.of_nat n)) = Some (Z.of_nat n)) →
    let loaded := foldl (Utils.load_line W) table (ExportOnnx.enumerate_lines i vocab) in
    (∀ k : Z, k < Z.of_nat i ∨ Z.of_nat (i + length vocab) ≤ k →
              loaded !! k = table !! k)
    ∧ (∀ j tok, vocab !! j = Some tok → is_word tok →
                loaded !! Z.of_nat (i + j) = Some tok)
    ∧ (∀ j tok, vocab !! j = Some tok → Forall (λ c, isspace c = true) tok →
                loaded !! Z.of_nat (i + j) = table !! Z.of_nat (i + j)).
Proof.
  induction vocab as [|s vocab IH]; intros i table Hvocab Hint loaded.
  - split; [done|]. split; intros j tok Hj; by rewrite lookup_nil in Hj.
  - apply Forall_cons in Hvocab as [Hs Hvocab].
    subst loaded. cbn [ExportOnnx.enumerate_lines foldl].
    set (table' := Utils.load_line W table _).
    destruct (IH (S i) table' Hvocab) as (Hout & Hwords & Hblanks).
    { intros n Hn. apply Hint. simpl. lia. }
    assert (∀ k : Z, k ≠ Z.of_nat i → table' !! k = table !! k) as Hother.
    { intros k Hk. subst table'. rewrite load_line_entry.
      destruct Hs as [Hword|Hblank].
      - rewrite (entry_of_word_line s _ (Z.of_nat i)) by (auto; apply Hint; simpl; lia).
        by rewrite lookup_insert_ne.
      - by rewrite entry_of_blank_line. }
    split; [|split].
    + intros k Hk. rewrite Hout by (simpl in Hk; lia).
      apply Hother. simpl in Hk. lia.
    + intros [|j] tok Hj Hword.
      * injection Hj as ->. rewrite Nat.add_0_r, Hout by lia.
        subst table'. rewrite load_line_entry.
        rewrite (entry_of_word_line tok _ (Z.of_nat i)) by (auto; apply Hint; simpl; lia).
        apply lookup_insert_eq.
      * simpl in Hj. replace (i + S j)%nat with (S i + j)%nat by lia. eauto.
    + intros [|j] tok Hj Hblank.
      * injection Hj as ->. rewrite Nat.add_0_r, Hout by lia.
        subst table'. rewrite load_line_entry. by rewrite entry_of_blank_line.
      * simpl in Hj. replace (i + S j)%nat with (S i + j)%nat by lia.
        rewrite (Hblanks j tok Hj Hblank). apply Hother. lia.
Qed.
End export_facts.

(** The vocabulary file written by [export] and read back by
    [load_token_map]. When every token is either a word (not empty, no
    whitespace) or made of whitespace only, and [int] reads back the
    indices [str] wrote: a word comes back under its position, a
    whitespace token is lost, the ["<blk>"] entry comes back under
    [len(vocab)], and that index is the largest of the table, hence the
    blank id of the decoder. *)
Theorem export_then_load (W : World) (vocab : list str) :
  Forall (λ tok, Text.is_word tok ∨ Forall (λ c, Text.isspace c = true) tok) vocab →
  (∀ n, (n ≤ length vocab)%nat →
        py_int W (Text.decimal (N.of_nat n)) = Some (Z.of_nat n)) →
  let table := Utils.load_lines W (ExportOnnx.token_lines vocab) in
  (∀ i tok, vocab !! i = Some tok → Text.is_word tok →
            table !! Z.of_nat i = Some tok)
  ∧ (∀ i tok, vocab !! i = Some tok → Forall (λ c, Text.isspace c = true) tok →
              table !! Z.of_nat i = None)
  ∧ table !! Z.of_nat (length vocab) = Some (lit "<blk>")
  ∧ is_max_id table (Z.of_nat (length vocab)).
Proof.
  intros Hvocab Hint table.
  destruct (load_enumerate_lines W vocab 0 ∅ Hvocab) as (Hout & Hwords & Hblanks).
  { intros n Hn. apply Hint. lia. }
  assert (Text.is_word (lit "<blk>")) as Hblk.
  { split; [done|]. repeat constructor. }
  assert (table = <[Z.of_nat (length vocab) := lit "<blk>"]>
                    (foldl (Utils.load_line W) ∅ (ExportOnnx.enumerate_lines 0 vocab)))
    as Htable.
  { subst table. unfold Utils.load_lines, ExportOnnx.token_lines.
    rewrite foldl_app. cbn [foldl]. rewrite load_line_entry.
    by rewrite (entry_of_word_line W _ _ (Z.of_nat (length vocab)) Hblk)
      by (apply Hint; lia). }
  rewrite Htable. split; [|split; [|split]].
  - intros i tok Hi Hword. pose proof (lookup_lt_Some _ _ _ Hi) as Hlt.
    rewrite lookup_insert_ne by lia. by apply (Hwords i tok).
  - intros i tok Hi Hblank. pose proof (lookup_lt_Some _ _ _ Hi) as Hlt.
    rewrite lookup_insert_ne by lia.
    specialize (Hblanks i tok Hi Hblank). simpl in Hblanks. by rewrite Hblanks.
  - apply lookup_insert_eq.
  - split.
    + apply elem_of_dom. rewrite lookup_insert_eq. by eexists.
    + intros k [tok Hk]%elem_of_dom.
      destruct (decide (k ≤ Z.of_nat (length vocab))) as [|Hgt]; [done|].
      rewrite lookup_insert_ne, Hout in Hk by lia. by rewrite lookup_empty in Hk.
Qed.

Lemma export_then_load_witness :
  let W := example_world (Returned []) in
  let vocab := [letter_a; [Text.SPACE]; letter_ba] in
  let table := Utils.load_lines W (ExportOnnx.token_lines vocab) in
  (∀ i tok, vocab !! i = Some tok → Text.is_word tok →
            table !! Z.of_nat i = Some tok)
  ∧ (∀ i tok, vocab !! i = Some tok → Forall (λ c, Text.isspace c = true) tok →
              table !! Z.of_nat i = None)
  ∧ table !! Z.of_nat (length vocab) = Some (lit "<blk>")
  ∧ is_max_id table (Z.of_nat (length vocab)).
Proof.
  apply (export_then_load (example_world (Returned []))
           [letter_a; [Text.SPACE]; letter_ba]).
  - repeat constructor; done.
  - intros n _. change (Text.ascii_int (Text.decimal (N.of_nat n)) = Some (Z.of_nat n)).
    rewrite ascii_int_decimal. f_equal. lia.
Defined.

Example export_then_load_example :
  Utils.load_lines (example_world (Returned []))
    (ExportOnnx.token_lines [letter_a; [Text.SPACE]; letter_ba])
  = {[ 0 := letter_a; 2 := letter_ba; 3 := lit "<blk>" ]}.
Proof. by vm_compute. Qed.

(** The order of the lines of a vocabulary file does not matter as long
    as no index is given twice. *)
Theorem load_lines_order_irrelevant (W : World) (ls ls' : list str) :
  ls ≡ₚ ls' →
  NoDup (omap (Utils.entry_of_line W) ls).*1 →
  Utils.load_lines W ls = Utils.load_lines W ls'.
Proof.
  intros Hperm Hnodup. rewrite !load_lines_last_wins.
  apply list_to_map_proper.
  - by rewrite fmap_reverse, reverse_Permutation.
  - by rewrite !reverse_Permutation, Hperm.
Qed.

Lemma load_lines_order_irrelevant_witness :
  let W := example_world (Returned []) in
  Utils.load_lines W [lit "a 1"; lit "b 2"; lit "oops"]
  = Utils.load_lines W [lit "oops"; lit "b 2"; lit "a 1"].
Proof.
  apply (load_lines_order_irrelevant (example_world (Returned []))).
  - symmetry. exact (reverse_Permutation [lit "a 1"; lit "b 2"; lit "oops"]).
  - refine (bool_decide_unpack _ _). by vm_compute.
Defined.

(** * Further properties of the transcription pipeline *)

Ltac run_pipeline :=
  unfold Main.transcribe, Main.handle, Main.on_error, Main.when_raise,
    Inference.transcribe_audio, Inference.get_inference_instance,
    Inference.new_ASRInference, Inference.transcribe, Inference._run_inference,
    Inference.set_instance, Inference.assign_token_map,
    Utils.preprocess_audio, Utils.validate_audio,
    Utils.load_token_map, try_except, update_stats, record_call, external,
    raise, mbind, mret, M_bind, M_ret, bind, ret.

Lemma decode_tokens_all_blank (frames : list Z) (table : gmap Z str) (blank : Z) :
  is_max_id table blank → Forall (λ id, id = blank) frames →
  decode_tokens frames table = [].
Proof.
  intros Hmax%is_max_id_max_key Hall.
  rewrite (decode_tokens_nonempty _ _ _ Hmax).
  generalize (@None Z). induction Hall as [|id frames -> _ IH]; intros previous.
  - done.
  - simpl. destruct (decide (blank = blank)); [apply IH | done].
Qed.

(** In [ASRInference.transcribe] the exception of the first stage that
    fails is raised unchanged and no later stage is called: a failed load
    stops before the features, failed features stop before the session,
    a failed session run stops before the vocabulary file is opened. *)
Theorem transcribe_stops_at_first_failure
    (W : World) (self : ASRInference) (path : str) (p : process) :
  let run := Inference.transcribe W self path p in
  (∀ e, librosa_load W path = Raised e →
        run.1 = Raised e ∧ calls run.2 = calls p ++ [librosa_load_call path])
  ∧ (∀ y e, librosa_load W path = Returned y →
            log_mel_features W y = Raised e →
            run.1 = Raised e
            ∧ calls run.2 = calls p ++ [librosa_load_call path; melspectrogram_call])
  ∧ (∀ y t e, librosa_load W path = Returned y →
              log_mel_features W y = Returned t →
              session_run W t (time_steps W t) = Raised e →
              run.1 = Raised e
              ∧ calls run.2 = calls p ++ [librosa_load_call path; melspectrogram_call;
                                           session_run_call]
              ∧ _inference_instance run.2 = _inference_instance p).
Proof.
  intros run. subst run. split; [|split].
  - intros e Hload. run_pipeline. by rewrite Hload.
  - intros y e Hload Hfeat. run_pipeline. rewrite Hload. simpl. rewrite Hfeat.
    simpl. by rewrite <- app_assoc.
  - intros y t e Hload Hfeat Hrun. run_pipeline. rewrite Hload. simpl.
    rewrite Hfeat. simpl. rewrite Hrun. simpl. by rewrite <- !app_assoc.
Qed.

Lemma transcribe_cached_run
    (W : World) (table : gmap Z str) (path : str) (p : process)
    (y : list (sample W)) (t : tensor W) (lg : logits_t W) :
  librosa_load W path = Returned y →
  log_mel_features W y = Returned t →
  session_run W t (time_steps W t) = Returned lg →
  Inference.transcribe W (MkASRInference (Some table)) path p
  = (Returned (_post_process_text (decode_tokens (argmax_squeeze W lg) table)),
     Process (stats p) (_inference_instance p)
             (calls p ++ [librosa_load_call path; melspectrogram_call;
                          session_run_call])).
Proof.
  intros Hload Hfeat Hrun. run_pipeline.
  rewrite Hload. simpl. rewrite Hfeat. simpl. rewrite Hrun. simpl.
  by rewrite <- !app_assoc.
Qed.

(** With its table already loaded, a transcription whose three stages
    succeed is the post-processed decoding of the frame ids of the logits;
    the audio is loaded, the features extracted and the session run, in
    that order, and the vocabulary file is not opened. *)
Theorem transcribe_with_cached_table
    (W : World) (table : gmap Z str) (path : str) (p : process)
    (y : list (sample W)) (t : tensor W) (lg : logits_t W) :
  librosa_load W path = Returned y →
  log_mel_features W y = Returned t →
  session_run W t (time_steps W t) = Returned lg →
  let run := Inference.transcribe W (MkASRInference (Some table)) path p in
  run.1 = Returned (_post_process_text (decode_tokens (argmax_squeeze W lg) table))
  ∧ calls run.2 = calls p ++ [librosa_load_call path; melspectrogram_call;
                               session_run_call]
  ∧ _inference_instance run.2 = _inference_instance p
  ∧ stats run.2 = stats p.
Proof.
  intros Hload Hfeat Hrun run. subst run.
  by rewrite (transcribe_cached_run W table path p y t lg Hload Hfeat Hrun).
Qed.

Lemma transcribe_with_cached_table_witness :
  let W := clip_world 96000 in
  let table : gmap Z str := {[ 5 := letter_a; 2 := letter_ba; 7 := lit "<blk>" ]} in
  let run := Inference.transcribe W (MkASRInference (Some table))
               (lit "six_seconds.wav") fresh_process in
  run.1 = Returned (_post_process_text
                      (decode_tokens (replicate (601 `div` 4) 7) table))
  ∧ calls run.2 = calls fresh_process
                  ++ [librosa_load_call (lit "six_seconds.wav"); melspectrogram_call;
                      session_run_call]
  ∧ _inference_instance run.2 = _inference_instance fresh_process
  ∧ stats run.2 = stats fresh_process.
Proof.
  apply (transcribe_with_cached_table (clip_world 96000) _ (lit "six_seconds.wav")
           fresh_process (replicate (N.to_nat 96000) tt) 601%nat
           (replicate (601 `div` 4) 7)).
  - reflexivity.
  - by vm_compute.
  - reflexivity.
Defined.

(** When the vocabulary file is missing or cannot be read, the first
    transcription on the instance the process holds, if its stages
    succeed, returns the sentinel, whatever the model answered, and the
    empty table is kept on that instance. *)
Theorem transcribe_without_vocabulary
    (W : World) (path : str) (p : process)
    (y : list (sample W)) (t : tensor W) (lg : logits_t W) :
  librosa_load W path = Returned y →
  log_mel_features W y = Returned t →
  session_run W t (time_steps W t) = Returned lg →
  (∀ ls, read_lines W (lit "model/tokens.txt") ≠ lines ls) →
  _inference_instance p = Some (MkASRInference None) →
  let run := Inference.transcribe W (MkASRInference None) path p in
  run.1 = Returned no_speech_detected
  ∧ _inference_instance run.2 = Some (MkASRInference (Some ∅)).
Proof.
  intros Hload Hfeat Hrun Hfile Hheld run. subst run. run_pipeline.
  rewrite Hload. simpl. rewrite Hfeat. simpl. rewrite Hrun. simpl.
  destruct (read_lines W (lit "model/tokens.txt")) as [|message|ls] eqn:Hread; simpl.
  - rewrite Hheld. by rewrite decide_True.
  - rewrite Hheld. by rewrite decide_True.
  - by destruct (Hfile ls).
Qed.

(** When every frame of the logits is the blank id, the transcription is
    the sentinel. *)
Theorem transcribe_all_blank_frames
    (W : World) (table : gmap Z str) (blank : Z) (path : str) (p : process)
    (y : list (sample W)) (t : tensor W) (lg : logits_t W) :
  librosa_load W path = Returned y →
  log_mel_features W y = Returned t →
  session_run W t (time_steps W t) = Returned lg →
  is_max_id table blank →
  Forall (λ id, id = blank) (argmax_squeeze W lg) →
  (Inference.transcribe W (MkASRInference (Some table)) path p).1
  = Returned no_speech_detected.
Proof.
  intros Hload Hfeat Hrun Hmax Hblank.
  rewrite (transcribe_cached_run W table path p y t lg Hload Hfeat Hrun).
  simpl. by rewrite (decode_tokens_all_blank _ _ _ Hmax Hblank).
Qed.

Lemma transcribe_without_vocabulary_witness :
  let W := without_vocabulary (clip_world 96000) in
  let run := Inference.transcribe W (MkASRInference None)
               (lit "six_seconds.wav") cold_process in
  run.1 = Returned no_speech_detected
  ∧ _inference_instance run.2 = Some (MkASRInference (Some ∅)).
Proof.
  apply (transcribe_without_vocabulary (without_vocabulary (clip_world 96000))
           (lit "six_seconds.wav") cold_process
           (replicate (N.to_nat 96000) tt) 601%nat (replicate (601 `div` 4) 7)).
  - reflexivity.
  - by vm_compute.
  - reflexivity.
  - intros ls. discriminate.
  - reflexivity.
Defined.

Lemma transcribe_all_blank_frames_witness :
  (Inference.transcribe (clip_world 96000) (MkASRInference (Some example_table))
     (lit "six_seconds.wav") fresh_process).1
  = Returned no_speech_detected.
Proof.
  apply (transcribe_all_blank_frames (clip_world 96000) example_table 7
           (lit "six_seconds.wav") fresh_process
           (replicate (N.to_nat 96000) tt) 601%nat (replicate (601 `div` 4) 7)).
  - reflexivity.
  - by vm_compute.
  - reflexivity.
  - apply max_key_Some. by vm_compute.
  - apply Forall_replicate. reflexivity.
Defined.

Ltac case_world :=
  repeat match goal with
         | |- context [match ?x with _ => _ end] =>
             lazymatch x with
             | context [match _ with _ => _ end] => fail
             | _ => destruct x eqn:?; simpl in *
             end
         end.

(** Once the instance holds a table, a request touches neither the model
    file nor the vocabulary file. *)
Lemma transcribe_audio_warm
    (W : World) (path : str) (p : process) (table : gmap Z str) :
  _inference_instance p = Some (MkASRInference (Some table)) →
  ∃ added, calls (Inference.transcribe_audio W path p).2 = calls p ++ added
           ∧ Forall (λ c, c = librosa_load_call path ∨ c = melspectrogram_call
                          ∨ c = session_run_call) added
           ∧ _inference_instance (Inference.transcribe_audio W path p).2
             = _inference_instance p
           ∧ stats (Inference.transcribe_audio W path p).2 = stats p.
Proof.
  intros Hinst. run_pipeline. rewrite Hinst. simpl.
  destruct (librosa_load W path) as [y|e] eqn:Hload; simpl.
  2: { exists [librosa_load_call path]. repeat split; try done.
       repeat constructor. }
  destruct (log_mel_features W y) as [t|e] eqn:Hfeat; simpl.
  2: { exists [librosa_load_call path; melspectrogram_call].
       rewrite <- app_assoc. repeat split; try done.
       repeat (apply Forall_cons; split; [auto|]). constructor. }
  destruct (session_run W t (time_steps W t)) as [lg|e] eqn:Hrun; simpl.
  2: { exists [librosa_load_call path; melspectrogram_call; session_run_call].
       rewrite <- !app_assoc. repeat split; try done.
       repeat (apply Forall_cons; split; [auto|]). constructor. }
  exists [librosa_load_call path; melspectrogram_call; session_run_call].
  rewrite <- !app_assoc. repeat split; try done.
  repeat (apply Forall_cons; split; [auto|]). constructor.
Qed.

Lemma transcribe_audio_returned_warm
    (W : World) (path : str) (p : process) (text : str) :
  (Inference.transcribe_audio W path p).1 = Returned text →
  ∃ table, _inference_instance (Inference.transcribe_audio W path p).2
           = Some (MkASRInference (Some table)).
Proof.
  run_pipeline.
  destruct (_inference_instance p) as [[[table|]]|] eqn:Hinst; simpl.
  - case_world; intros; try discriminate; rewrite ?Hinst; eauto.
  - rewrite ?Hinst. case_world; intros; try discriminate;
      rewrite ?decide_True by done; simpl; eauto.
  - case_world; intros; try discriminate;
      rewrite ?decide_True by done; simpl; eauto.
Qed.

(** Requests served one after the other share the session and the
    vocabulary: once a [transcribe_audio] call has returned a
    transcription, the instance holds a table, and a call that starts
    after it creates no session, opens no vocabulary file and leaves the
    instance as it is. Calls that overlap the first one are not covered. *)
Theorem later_request_reuses_session_and_vocabulary
    (W : World) (path path' : str) (p : process) (text : str) :
  (Inference.transcribe_audio W path p).1 = Returned text →
  let p' := (Inference.transcribe_audio W path p).2 in
  let run := Inference.transcribe_audio W path' p' in
  (∃ table, _inference_instance p' = Some (MkASRInference (Some table)))
  ∧ ∃ added, calls run.2 = calls p' ++ added
             ∧ (InferenceSession_call ∉ added)
             ∧ (∀ f, open_call f ∉ added)
             ∧ _inference_instance run.2 = _inference_instance p'.
Proof.
  intros Hret p' run.
  destruct (transcribe_audio_returned_warm W path p text Hret) as [table Htable].
  split; [eauto|].
  destruct (transcribe_audio_warm W path' p' table Htable)
    as (added & Hcalls & Hadded & Hinst & _).
  exists added. split; [done|]. rewrite Forall_forall in Hadded.
  split; [|split; [|done]].
  - intros Hin. by destruct (Hadded _ Hin) as [?|[?|?]].
  - intros f Hin. by destruct (Hadded _ Hin) as [?|[?|?]].
Qed.

Lemma later_request_reuses_session_and_vocabulary_witness :
  let W := clip_world 96000 in
  let p' := (Inference.transcribe_audio W (lit "first.wav") fresh_process).2 in
  let run := Inference.transcribe_audio W (lit "second.wav") p' in
  (∃ table, _inference_instance p' = Some (MkASRInference (Some table)))
  ∧ ∃ added, calls run.2 = calls p' ++ added
             ∧ (InferenceSession_call ∉ added)
             ∧ (∀ f, open_call f ∉ added)
             ∧ _inference_instance run.2 = _inference_instance p'.
Proof.
  apply (later_request_reuses_session_and_vocabulary (clip_world 96000) (lit "first.wav")
           (lit "second.wav") fresh_process no_speech_detected).
  by vm_compute.
Defined.

(** * Further properties of the upload handler *)

Lemma plain_not_http {A} (o : outcome A) (status_code : Z) (detail : str) :
  plain o → o ≠ Raised (HTTPException status_code detail).
Proof. by intros Hplain ->. Qed.

Ltac library_exception Hplain :=
  exfalso; destruct Hplain as (Hload_plain & Hfeat_plain & Hsess_plain & Hrun_plain);
  match goal with
  | Heq : ?o = Raised (HTTPException ?c ?d) |- _ =>
      apply (plain_not_http o c d);
      [first [apply Hload_plain | apply Hfeat_plain | apply Hsess_plain
             | apply Hrun_plain]
      | exact Heq]
  end.

(** Every request is counted once, as a success exactly when the handler
    returns and as a failure otherwise; and the handler raises nothing
    but [HTTPException], with status 400 or 500. *)
Theorem request_counted_once (W : World) (file : Main.UploadFile) (p : process) :
  libraries_raise_plain W →
  let run := Main.transcribe W file p in
  total_requests (stats run.2) = total_requests (stats p) + 1
  ∧ ((∃ response, run.1 = Returned response)
     ∧ successful_transcriptions (stats run.2) = successful_transcriptions (stats p) + 1
     ∧ failed_transcriptions (stats run.2) = failed_transcriptions (stats p)
     ∨ (∃ status_code detail,
          run.1 = Raised (HTTPException status_code detail)
          ∧ (status_code = 400 ∨ status_code = 500))
       ∧ successful_transcriptions (stats run.2) = successful_transcriptions (stats p)
       ∧ failed_transcriptions (stats run.2) = failed_transcriptions (stats p) + 1).
Proof.
  intros Hplain run. subst run. run_pipeline.
  destruct (Main.bad_content_type file); simpl.
  { split; [done|]. right. split; [|done]. eexists _, _. split; [done|]. by left. }
  destruct (Main.bad_filename file); simpl.
  { split; [done|]. right. split; [|done]. eexists _, _. split; [done|]. by left. }
  destruct (Main.too_large file); simpl.
  { split; [done|]. right. split; [|done]. eexists _, _. split; [done|]. by left. }
  case_world;
    try (split; [done|]);
    try (left; split; [by eexists | done]);
    try (right; split; [|done]; eexists _, _; split; [done|]; auto; fail);
    library_exception Hplain.
Qed.

Lemma example_world_plain (audio : outcome (list unit)) :
  plain audio → libraries_raise_plain (example_world audio).
Proof. intros Haudio. repeat split; intros; try exact Haudio; exact I. Qed.

Lemma request_counted_once_witness :
  let run := Main.transcribe (clip_world 96000) wav_upload warm_process in
  total_requests (stats run.2) = total_requests (stats warm_process) + 1
  ∧ ((∃ response, run.1 = Returned response)
     ∧ successful_transcriptions (stats run.2)
       = successful_transcriptions (stats warm_process) + 1
     ∧ failed_transcriptions (stats run.2) = failed_transcriptions (stats warm_process)
     ∨ (∃ status_code detail,
          run.1 = Raised (HTTPException status_code detail)
          ∧ (status_code = 400 ∨ status_code = 500))
       ∧ successful_transcriptions (stats run.2)
         = successful_transcriptions (stats warm_process)
       ∧ failed_transcriptions (stats run.2)
         = failed_transcriptions (stats warm_process) + 1).
Proof.
  apply (request_counted_once (clip_world 96000) wav_upload warm_process).
  apply example_world_plain. exact I.
Defined.



(** An upload whose audio cannot be loaded is answered like one of the
    wrong length: status 400 with the duration message. Nothing but the
    temporary file, the one load and the clean-up happens. *)
Theorem unreadable_upload_rejected
    (W : World) (file : Main.UploadFile) (p : process) (e : exn) :
  accepted file →
  temp_name W ≠ [] →
  librosa_load W (temp_name W) = Raised e →
  let run := Main.transcribe W file p in
  run.1 = Raised (HTTPException 400 (lit "Audio duration must be between 5-10 seconds"))
  ∧ calls run.2 = calls p ++ [NamedTemporaryFile_call;
                               librosa_load_call (temp_name W);
                               add_cleanup_task_call (temp_name W)]
  ∧ _inference_instance run.2 = _inference_instance p.
Proof.
  intros Hok Htmp Hload run. subst run. unfold accepted in Hok.
  apply orb_false_elim in Hok as [Hok Hsize].
  apply orb_false_elim in Hok as [Htype Hname].
  run_pipeline. rewrite Htype, Hname, Hsize. simpl. rewrite Hload. simpl.
  destruct (temp_name W) as [|c0 name]; [done|]. simpl.
  by rewrite <- !app_assoc.
Qed.

Lemma unreadable_upload_rejected_witness :
  let W := corrupt_world in
  let run := Main.transcribe W wav_upload fresh_process in
  run.1 = Raised (HTTPException 400 (lit "Audio duration must be between 5-10 seconds"))
  ∧ calls run.2 = calls fresh_process ++ [NamedTemporaryFile_call;
                                           librosa_load_call (temp_name W);
                                           add_cleanup_task_call (temp_name W)]
  ∧ _inference_instance run.2 = _inference_instance fresh_process.
Proof.
  apply (unreadable_upload_rejected corrupt_world wav_upload fresh_process
           (Exception (lit "Error opening file: Format not recognised."))).
  - by vm_compute.
  - discriminate.
  - reflexivity.
Defined.

(** When the model file is missing and no instance exists yet, an upload
    that passes every check is answered with status 500 and a detail that
    names the missing model; the audio has been loaded once for the
    duration check, no features are extracted, and the instance is still
    absent, so the next request tries again. *)
Theorem missing_model_is_a_500
    (W : World) (file : Main.UploadFile) (p : process) (y : list (sample W)) :
  accepted file →
  temp_name W ≠ [] →
  librosa_load W (temp_name W) = Returned y →
  (5 <= Utils.get_duration W y 16000 ∧ Utils.get_duration W y 16000 <= 10)%Q →
  _inference_instance p = None →
  model_exists W = false →
  let run := Main.transcribe W file p in
  run.1 = Raised (HTTPException 500
                    (lit "Internal server error during transcription: "
                     ++ lit "Model file not found: model/stt_hi_conformer_ctc_medium.onnx"))
  ∧ calls run.2 = calls p ++ [NamedTemporaryFile_call;
                               librosa_load_call (temp_name W);
                               add_cleanup_task_call (temp_name W)]
  ∧ _inference_instance run.2 = None
  ∧ failed_transcriptions (stats run.2) = failed_transcriptions (stats p) + 1.
Proof.
  intros Hok Htmp Hload Hrange%in_range_true Hinst Hmodel run.
  subst run. unfold accepted in Hok.
  apply orb_false_elim in Hok as [Hok Hsize].
  apply orb_false_elim in Hok as [Htype Hname].
  run_pipeline. rewrite Htype, Hname, Hsize. simpl. rewrite Hload. simpl.
  rewrite Hrange. simpl. rewrite Hinst, Hmodel. simpl.
  destruct (temp_name W) as [|c0 name]; [done|]. simpl.
  by rewrite <- !app_assoc.
Qed.

Lemma missing_model_is_a_500_witness :
  let W := without_model (clip_world 96000) in
  let run := Main.transcribe W wav_upload fresh_process in
  run.1 = Raised (HTTPException 500
                    (lit "Internal server error during transcription: "
                     ++ lit "Model file not found: model/stt_hi_conformer_ctc_medium.onnx"))
  ∧ calls run.2 = calls fresh_process ++ [NamedTemporaryFile_call;
                                           librosa_load_call (temp_name W);
                                           add_cleanup_task_call (temp_name W)]
  ∧ _inference_instance run.2 = None
  ∧ failed_transcriptions (stats run.2) = failed_transcriptions (stats fresh_process) + 1.
Proof.
  apply (missing_model_is_a_500 (without_model (clip_world 96000)) wav_upload
           fresh_process (replicate (N.to_nat 96000) tt)).
  - by vm_compute.
  - discriminate.
  - reflexivity.
  - split; by vm_compute.
  - reflexivity.
  - reflexivity.
Defined.

(** An accepted upload of valid length, served by an instance that holds
    its table, is answered with the post-processed decoding under
    ["transcription"], the file name it came with and status "success".
    The audio is loaded twice, once for the duration check and once for
    the features, and the clean-up is scheduled last. *)
Theorem accepted_upload_transcribed
    (W : World) (file : Main.UploadFile) (p : process) (table : gmap Z str)
    (y : list (sample W)) (t : tensor W) (lg : logits_t W) :
  accepted file →
  librosa_load W (temp_name W) = Returned y →
  (5 <= Utils.get_duration W y 16000 ∧ Utils.get_duration W y 16000 <= 10)%Q →
  log_mel_features W y = Returned t →
  session_run W t (time_steps W t) = Returned lg →
  _inference_instance p = Some (MkASRInference (Some table)) →
  let run := Main.transcribe W file p in
  run.1 = Returned {|
            Main.transcription :=
              _post_process_text (decode_tokens (argmax_squeeze W lg) table);
            Main.response_filename := Main.filename file;
            Main.model := lit "stt_hi_conformer_ctc_medium";
            Main.status := lit "success" |}
  ∧ calls run.2 = calls p ++ [NamedTemporaryFile_call;
                               librosa_load_call (temp_name W);
                               librosa_load_call (temp_name W);
                               melspectrogram_call;
                               session_run_call;
                               add_cleanup_task_call (temp_name W)]
  ∧ successful_transcriptions (stats run.2) = successful_transcriptions (stats p) + 1.
Proof.
  intros Hok Hload Hrange%in_range_true Hfeat Hrun Hinst run.
  subst run. unfold accepted in Hok.
  apply orb_false_elim in Hok as [Hok Hsize].
  apply orb_false_elim in Hok as [Htype Hname].
  run_pipeline. rewrite Htype, Hname, Hsize. simpl. rewrite Hload. simpl.
  rewrite Hrange. simpl. rewrite Hinst. simpl.
  rewrite Hfeat. simpl. rewrite Hrun. simpl.
  by rewrite <- !app_assoc.
Qed.

Lemma accepted_upload_transcribed_witness :
  let W := clip_world 96000 in
  let run := Main.transcribe W wav_upload warm_process in
  run.1 = Returned {|
            Main.transcription :=
              _post_process_text
                (decode_tokens (argmax_squeeze W (replicate (601 `div` 4) 7))
                               example_table);
            Main.response_filename := Main.filename wav_upload;
            Main.model := lit "stt_hi_conformer_ctc_medium";
            Main.status := lit "success" |}
  ∧ calls run.2 = calls warm_process ++ [NamedTemporaryFile_call;
                                          librosa_load_call (temp_name W);
                                          librosa_load_call (temp_name W);
                                          melspectrogram_call;
                                          session_run_call;
                                          add_cleanup_task_call (temp_name W)]
  ∧ successful_transcriptions (stats run.2)
    = successful_transcriptions (stats warm_process) + 1.
Proof.
  apply (accepted_upload_transcribed (clip_world 96000) wav_upload warm_process
           example_table (replicate (N.to_nat 96000) tt) 601%nat
           (replicate (601 `div` 4) 7)).
  - by vm_compute.
  - reflexivity.
  - split; by vm_compute.
  - by vm_compute.
  - reflexivity.
  - reflexivity.
Defined.

(** * The setup check *)

Lemma test_model_loading_false
    (W : World) (env : CheckSetup.Env) (initialize_model : M unit) (p : process) :
  (CheckSetup.test_model_loading env initialize_model p).1 = Returned false.
Proof.
  unfold CheckSetup.test_model_loading, CheckSetup.import_from, try_except,
    raise, mbind, mret, M_bind, M_ret, bind, ret.
  assert (forallb (λ name, bool_decide (name ∈ CheckSetup.inference_names))
                  [lit "initialize_model"] = false) as -> by by vm_compute.
  by destruct (CheckSetup.try_import env (lit "app.inference")).
Qed.

(** [test_model_loading] imports a name that app/inference.py does not
    define, so it reports failure in every environment and never reaches
    the call; hence [main] never reports that all checks passed. *)
Theorem check_setup_never_passes
    (W : World) (env : CheckSetup.Env) (initialize_model : M unit) (p : process) :
  (CheckSetup.test_model_loading env initialize_model p).1 = Returned false
  ∧ (CheckSetup.main W env initialize_model p).1 ≠ Returned true.
Proof.
  split; [by apply test_model_loading_false|].
  unfold CheckSetup.main. unfold mbind at 1 2 3 4 5. unfold M_bind, bind.
  unfold mret at 1. unfold M_ret, ret.
  destruct (CheckSetup.check_python_imports env p) as [[r2|e2] p2]; [|done].
  destruct (CheckSetup.check_model_files env p2) as [[r3|e3] p3]; [|done].
  destruct (CheckSetup.test_audio_processing W env p3) as [[r4|e4] p4]; [|done].
  pose proof (test_model_loading_false W env initialize_model p4) as H5.
  destruct (CheckSetup.test_model_loading env initialize_model p4) as [[r5|e5] p5];
    [|done].
  simpl in H5. injection H5 as ->. simpl.
  unfold mret, M_ret, ret. by intros [=].
Qed.

(** * The feature step *)

Section feature_facts.
Import Features.
Local Open Scope R_scope.




Lemma sum_squares_nonneg {A} (f : A → R) (l : list A) :
  0 <= sum (map (λ x, Rsqr (f x)) l).
Proof.
  induction l as [|a l IH]; [simpl; lra|].
  change (sum (map (λ x, Rsqr (f x)) (a :: l)))
    with (Rsqr (f a) + sum (map (λ x, Rsqr (f x)) l)).
  pose proof (Rle_0_sqr (f a)). lra.
Qed.

Lemma length_pos (row : list R) : row ≠ [] → 0 < INR (length row).
Proof.
  intros Hne. destruct row as [|a row]; [done|].
  change (length (a :: row)) with (S (length row)). apply lt_0_INR. lia.
Qed.

Lemma variance_nonneg (row : list R) :
  row ≠ [] → 0 <= mean (map (λ x, Rsqr (x - mean row)) row).
Proof.
  intros Hne. unfold mean at 1. rewrite length_map.
  apply Rmult_le_pos; [apply sum_squares_nonneg|].
  left. apply Rinv_0_lt_compat. by apply length_pos.
Qed.





End feature_facts.










